(** * fix-web-export: adding the module type to the entry script tags

    A shallow embedding of [scripts/fix-web-export.py].  The script walks a
    directory tree, and rewrites in every [.html] file the tags
    [<script src='URL' defer>] into [<script type='module' src='URL' defer>]
    with one call of [re.sub].  Where a comment of this file quotes a tag or
    the pattern, the character ['] stands for the double quote of the
    source.

    The first part models the regular expression and [re.sub] on texts, the
    second part the file system, [os.walk], [fix_html] and [main]. *)

From Stdlib Require Import List Ascii String Arith Lia Bool ZArith.
From Stdlib Require Import DecimalString Finite.
From Equations Require Import Equations.
Import ListNotations.

Set Implicit Arguments.

(** ** Texts *)

(** A Python [str] is a sequence of characters; what [f.read()] returns and
    what [f.write] takes is modelled as a list of characters.  The pattern
    tells apart the characters of its literals and the double quote only. *)
Definition text := list ascii.

Definition lit (s : string) : text := list_ascii_of_string s.

(** The double quote, character 34. *)
Definition dquote : ascii := "034"%char.

Definition is_dquote (c : ascii) : bool := Ascii.eqb c dquote.

Definition text_eqb (a b : text) : bool :=
  if list_eq_dec ascii_dec a b then true else false.

(** ** The pattern [<script src='([^']+)' defer>] *)

Module Re.

(** The literal that opens the pattern: [<script src=']. *)
Definition PFX : text := lit "<script src=" ++ [dquote].

(** The literal that closes the pattern: [' defer>]. *)
Definition SFX : text := dquote :: lit " defer>".

(** The replacement template [<script type='module' src='\1' defer>], cut at
    the group reference. *)
Definition NEW_PFX : text :=
  lit "<script type=" ++ [dquote] ++ lit "module" ++ [dquote] ++
  lit " src=" ++ [dquote].

Definition NEW_SFX : text := dquote :: lit " defer>".

Definition expand (url : text) : text := NEW_PFX ++ url ++ NEW_SFX.

(** Matching a literal at the head of the text. *)
Fixpoint strip_prefix (p s : text) : option text :=
  match p, s with
  | [], _ => Some s
  | a :: p', b :: s' => if Ascii.eqb a b then strip_prefix p' s' else None
  | _ :: _, [] => None
  end.

Definition starts_with (p s : text) : bool :=
  match strip_prefix p s with Some _ => true | None => false end.

(** The group [([^']+)] followed by the closing literal.  The quantifier is
    greedy: the engine first takes one more character, and only when the
    rest of the pattern fails after that does it try to close the group
    where it stands (backtracking). *)
Fixpoint group_then_sfx (s : text) : option text :=
  match s with
  | [] => None
  | c :: t =>
      if is_dquote c then None
      else match group_then_sfx t with
           | Some u => Some (c :: u)
           | None => if starts_with SFX t then Some [c] else None
           end
  end.

(** A match of the whole pattern that starts at the head of the text; the
    result is group 1. *)
Definition match_at (s : text) : option text :=
  match strip_prefix PFX s with
  | Some r => group_then_sfx r
  | None => None
  end.

(** The length of the match whose group is [u]: where the scan resumes. *)
Definition m_end (u : text) : nat :=
  List.length PFX + List.length u + List.length SFX.

(** What [re.sub] sees of the subject: the characters that no match covers,
    and the matches, from left to right. *)
Inductive piece : Type :=
| Lit (c : ascii)
| Match (url : text).

Definition inspect {A} (a : A) : {b : A | a = b} := exist _ a eq_refl.

(** The scan of [re.sub]: at each position try the pattern; on a match,
    record it and resume after it; otherwise keep the character and move one
    position on. *)
Equations? scan (s : text) : list piece by wf (List.length s) lt :=
  scan [] := [];
  scan (c :: t) with inspect (match_at (c :: t)) := {
    | exist _ (Some u) _ => Match u :: scan (skipn (m_end u) (c :: t));
    | exist _ None _ => Lit c :: scan t }.
Proof.
  change (List.length (skipn (m_end u) (c :: t)) < S (List.length t)).
  rewrite length_skipn. unfold m_end. simpl. lia.
Qed.

(** The text a piece stands for in the subject, and in the result. *)
Definition source (p : piece) : text :=
  match p with
  | Lit c => [c]
  | Match u => PFX ++ u ++ SFX
  end.

Definition target (p : piece) : text :=
  match p with
  | Lit c => [c]
  | Match u => expand u
  end.

Definition is_match (p : piece) : bool :=
  match p with Match _ => true | Lit _ => false end.

(** [re.subn(pattern, template, s)]: the new text and the number of
    substitutions made. *)
Definition re_subn (s : text) : text * nat :=
  let ps := scan s in
  (flat_map target ps, List.length (filter is_match ps)).

(** [re.sub(pattern, template, s)]. *)
Definition re_sub (s : text) : text := fst (re_subn s).

(** ** Notions used to state the properties *)

(** The group of a match: one character at least, none of them a double
    quote. *)
Definition url_ok (u : text) : Prop := u <> [] /\ ~ In dquote u.

(** The pattern occurs at the head of the text. *)
Definition occurs_at (t : text) : Prop :=
  exists u r, url_ok u /\ t = PFX ++ u ++ SFX ++ r.

(** The pattern occurs somewhere in the text. *)
Definition occurs (s : text) : Prop :=
  exists a t, s = a ++ t /\ occurs_at t.

(** [x] is a substring of [s]; the Boolean test and its meaning. *)
Fixpoint contains (x s : text) : bool :=
  starts_with x s ||
  match s with
  | [] => false
  | _ :: t => contains x t
  end.

Definition infix_of (x s : text) : Prop := exists a b, s = a ++ x ++ b.

(** The condition of [fix_html] for writing the file back. *)
Definition changed (s : text) : bool := negb (text_eqb (re_sub s) s).

(** [<script src=' defer>]: the opening literal met where an earlier match
    closes. *)
Definition NESTED : text := lit "<script src=" ++ SFX.

(** The group as a scan without backtracking would take it: the characters
    up to the first double quote. *)
Fixpoint take_url (s : text) : text :=
  match s with
  | [] => []
  | c :: t => if is_dquote c then [] else c :: take_url t
  end.

(** The match at the head of the text, decided in one pass: the opening
    literal, the characters up to the first double quote, at least one, and
    the closing literal right there. *)
Definition match_first_quote (s : text) : option text :=
  match strip_prefix PFX s with
  | Some r =>
      match take_url r with
      | [] => None
      | u => if starts_with SFX (skipn (List.length u) r) then Some u else None
      end
  | None => None
  end.

End Re.

(** ** The file system, [os.walk] and the script *)

Module Fs.

(** A directory tree.  A file holds the text that reading it in text mode
    returns; a directory lists its entries by name. *)
Inductive node : Type :=
| File (content : text)
| Dir (entries : list (string * node)).

(** A path is kept as the list of its components: the string given to
    [os.walk] first, then the names joined to it by [os.path.join]. *)
Definition path := list string.

Definition os_path_join (root : path) (name : string) : path := root ++ [name].

Definition path_eqb (p q : path) : bool :=
  if list_eq_dec string_dec p q then true else false.

(** What the path strings of the command line name when the script starts. *)
Definition filesystem := string -> option node.

Definition lookup (name : string) (es : list (string * node)) : option node :=
  match find (fun e => String.eqb (fst e) name) es with
  | Some e => Some (snd e)
  | None => None
  end.

(** The text of the file that the names lead to, from a node. *)
Fixpoint read_at (names : list string) (n : node) : option text :=
  match names, n with
  | [], File c => Some c
  | name :: rest, Dir es =>
      match lookup name es with
      | Some n' => read_at rest n'
      | None => None
      end
  | _, _ => None
  end.

Definition fs_read (fs : filesystem) (p : path) : option text :=
  match p with
  | [] => None
  | top :: names =>
      match fs top with
      | Some n => read_at names n
      | None => None
      end
  end.

Definition os_path_isdir (fs : filesystem) (p : string) : bool :=
  match fs p with
  | Some (Dir _) => true
  | _ => false
  end.

Definition is_dir (e : string * node) : bool :=
  match snd e with Dir _ => true | File _ => false end.

Definition dirs_of (es : list (string * node)) : list string :=
  map fst (filter is_dir es).

Definition files_of (es : list (string * node)) : list string :=
  map fst (filter (fun e => negb (is_dir e)) es).

(** [os.walk], top-down: the triple of a directory comes first, then the
    walks of its subdirectories in the order of the listing.  A top that is
    not a directory yields nothing, so the entries that are files add
    nothing to the walk of their directory. *)
Fixpoint walk_node (top : path) (n : node)
  : list (path * list string * list string) :=
  match n with
  | File _ => []
  | Dir es =>
      (top, dirs_of es, files_of es) ::
      flat_map (fun e => walk_node (os_path_join top (fst e)) (snd e)) es
  end.

Definition os_walk (fs : filesystem) (top : string)
  : list (path * list string * list string) :=
  match fs top with
  | Some n => walk_node [top] n
  | None => []
  end.

(** [name.endswith(suffix)]. *)
Definition endswith (name suffix : string) : bool :=
  let a := lit name in
  let b := lit suffix in
  (List.length b <=? List.length a) &&
  text_eqb (skipn (List.length a - List.length b) a) b.

(** The opens of files, in the order they happen. *)
Inductive event : Type :=
| OpenRead (p : path)
| OpenWrite (p : path).

(** The state the script runs on: the text of every file, and the opens
    made so far (latest first). *)
Record world : Type := mkWorld {
  files : path -> option text;
  trace : list event
}.

Definition init_world (fs : filesystem) : world :=
  {| files := fs_read fs; trace := [] |}.

Definition write_file (w : world) (p : path) (c : text) : world :=
  {| files := fun q => if path_eqb q p then Some c else files w q;
     trace := OpenWrite p :: trace w |}.

Definition log_read (w : world) (p : path) : world :=
  {| files := files w; trace := OpenRead p :: trace w |}.

(** [fix_html(path)]: [None] when the file cannot be opened, which raises
    in the source. *)
Definition fix_html (p : path) (w : world) : option (world * bool) :=
  match files w p with
  | None => None
  | Some content =>
      let w1 := log_read w p in
      let new := Re.re_sub content in
      if negb (text_eqb new content)
      then Some (write_file w1 p new, true)
      else Some (w1, false)
  end.

(** Where the loops of [main] stand: running, with the state and the
    counter, or left by an exception that [fix_html] raised. *)
Inductive run : Type :=
| Running (w : world) (count : nat)
| Raised (w : world).

(** The body of the inner loop of [main], on one name of [files]. *)
Definition visit_file (root : path) (acc : run) (name : string) : run :=
  match acc with
  | Raised w => Raised w
  | Running w count =>
      if endswith name ".html" then
        match fix_html (os_path_join root name) w with
        | Some (w', true) => Running w' (count + 1)
        | Some (w', false) => Running w' count
        | None => Raised w
        end
      else Running w count
  end.

(** The body of the outer loop, on one triple of [os.walk]. *)
Definition visit_dir (acc : run) (t : path * list string * list string)
  : run :=
  let '(root, _, names) := t in
  fold_left (visit_file root) names acc.

(** The two loops.  The triples are those of the tree at the start: the
    script changes the text of files only, never the listing of a
    directory. *)
Definition walk_loop (triples : list (path * list string * list string))
  (w : world) : run :=
  fold_left visit_dir triples (Running w 0).

(** How a run ends: the two streams, the exit code and the final state; or
    an exception that nothing catches. *)
Inductive outcome : Type :=
| Exit (stdout stderr : string) (code : Z) (w : world)
| Uncaught (w : world).

Definition nl : string := String "010"%char EmptyString.

Definition str_of_nat (n : nat) : string :=
  NilEmpty.string_of_uint (Nat.to_uint n).

(** [sys.argv[1] if len(sys.argv) > 1 else 'dist']. *)
Definition dist_dir_of (argv : list string) : string :=
  if 1 <? List.length argv then nth 1 argv EmptyString else "dist"%string.

Definition error_line (dist_dir : string) : string :=
  ("Error: directory '" ++ dist_dir ++ "' not found" ++ nl)%string.

Definition fixed_line (count : nat) (dist_dir : string) : string :=
  ("Fixed " ++ str_of_nat count ++ " HTML files in " ++ dist_dir ++ nl)%string.

Definition main (argv : list string) (fs : filesystem) : outcome :=
  let dist_dir := dist_dir_of argv in
  let w0 := init_world fs in
  if negb (os_path_isdir fs dist_dir) then
    Exit EmptyString (error_line dist_dir) 1 w0
  else
    match walk_loop (os_walk fs dist_dir) w0 with
    | Running w count => Exit (fixed_line count dist_dir) EmptyString 0 w
    | Raised w => Uncaught w
    end.

(** ** Notions used to state the properties *)

Fixpoint nodupb (l : list string) : bool :=
  match l with
  | [] => true
  | x :: r => negb (existsb (String.eqb x) r) && nodupb r
  end.

(** The names of a directory are distinct, at every level. *)
Fixpoint wf_node (n : node) : bool :=
  match n with
  | File _ => true
  | Dir es => nodupb (map fst es) && forallb (fun e => wf_node (snd e)) es
  end.

Definition is_html (name : string) : bool := endswith name ".html".

(** The paths that the two loops of [main] hand to [fix_html], in order. *)
Definition listed (f : string -> bool)
  (triples : list (path * list string * list string)) : list path :=
  flat_map (fun t => map (os_path_join (fst (fst t))) (filter f (snd t)))
           triples.

Definition targets (fs : filesystem) (top : string) : list path :=
  listed is_html (os_walk fs top).

(** One call of [fix_html] and the update of the counter. *)
Definition step (acc : run) (p : path) : run :=
  match acc with
  | Raised w => Raised w
  | Running w count =>
      match fix_html p w with
      | Some (w', true) => Running w' (count + 1)
      | Some (w', false) => Running w' count
      | None => Raised w
      end
  end.

(** The name of a path: its last component. *)
Definition basename (p : path) : string := last p EmptyString.

(** The path names a file below the top that [fs] resolves. *)
Definition is_file (fs : filesystem) (p : path) : Prop :=
  exists c, fs_read fs p = Some c.

(** Whether [fix_html] rewrites the file at [p] in the state [w]. *)
Definition changed_at (w : world) (p : path) : bool :=
  match files w p with
  | Some c => Re.changed c
  | None => false
  end.

Definition well_formed (fs : filesystem) (top : string) : bool :=
  match fs top with
  | Some n => wf_node n
  | None => true
  end.

(** The tree after a run, read off the tree before it: every file whose
    name ends with [.html] holds the substitution of its content. *)
Fixpoint patch_node (name : string) (n : node) : node :=
  match n with
  | File c => if is_html name then File (Re.re_sub c) else File c
  | Dir es => Dir (map (fun e => (fst e, patch_node (fst e) (snd e))) es)
  end.

Definition after_run (fs : filesystem) (top : string) : filesystem :=
  fun p => if String.eqb p top then option_map (patch_node top) (fs p)
           else fs p.

Definition is_write (e : event) : bool :=
  match e with
  | OpenWrite _ => true
  | OpenRead _ => false
  end.

(** The opens that one call of [fix_html] makes, in the order of time. *)
Definition opens_of (w : world) (p : path) : list event :=
  OpenRead p :: (if changed_at w p then [OpenWrite p] else []).

End Fs.

(** ** Sample inputs *)

Module Samples.
Import Re Fs.

(** [<script src='/app.js' defer></script>] *)
Definition entry_tag : text :=
  PFX ++ lit "/app.js" ++ SFX ++ lit "</script>".

(** [<script src='x<script src=' defer>' defer>]: an occurrence whose group
    ends with the opening literal of a second one. *)
Definition nested_tag : text :=
  PFX ++ lit "x" ++ PFX ++ lit " defer>" ++ SFX.

Definition demo_tree : node :=
  Dir [ ("index.html"%string, File entry_tag);
        ("app.js"%string, File entry_tag);
        ("sub"%string,
         Dir [ ("a.html"%string, File (lit "<p>plain</p>"));
               ("b.HTML"%string, File entry_tag);
               ("c.html"%string, File (lit "x" ++ entry_tag ++ entry_tag)) ]) ].

Definition demo_fs : filesystem :=
  fun p => if String.eqb p "dist" then Some demo_tree else None.

Definition summary (o : outcome) : option (string * string * Z) :=
  match o with
  | Exit out err code _ => Some (out, err, code)
  | Uncaught _ => None
  end.

Definition final_world (o : outcome) : world :=
  match o with
  | Exit _ _ _ w => w
  | Uncaught w => w
  end.

End Samples.

(** * Properties of the substitution *)

Module ReFacts.
Import Re.

(** ** Literals *)

Lemma text_eqb_eq (a b : text) : text_eqb a b = true <-> a = b.
Proof.
  unfold text_eqb. destruct (list_eq_dec ascii_dec a b); split; congruence.
Qed.

Lemma text_eqb_neq (a b : text) : text_eqb a b = false <-> a <> b.
Proof.
  unfold text_eqb. destruct (list_eq_dec ascii_dec a b); split; congruence.
Qed.

Lemma is_dquote_false (c : ascii) : is_dquote c = false <-> c <> dquote.
Proof. unfold is_dquote. apply Ascii.eqb_neq. Qed.

Lemma strip_prefix_app (p r : text) : strip_prefix p (p ++ r) = Some r.
Proof.
  induction p as [|a p IH]; simpl; [reflexivity|].
  rewrite Ascii.eqb_refl. exact IH.
Qed.

Lemma strip_prefix_some (p s r : text) :
  strip_prefix p s = Some r -> s = p ++ r.
Proof.
  revert s. induction p as [|a p IH]; intros s H; simpl in H.
  - injection H as ->. reflexivity.
  - destruct s as [|b s]; [discriminate|].
    destruct (Ascii.eqb a b) eqn:E; [|discriminate].
    apply Ascii.eqb_eq in E. subst b. simpl. f_equal. apply IH, H.
Qed.

Lemma starts_with_app (p r : text) : starts_with p (p ++ r) = true.
Proof. unfold starts_with. rewrite strip_prefix_app. reflexivity. Qed.

Lemma starts_with_true (p s : text) :
  starts_with p s = true -> exists r, s = p ++ r.
Proof.
  unfold starts_with. destruct (strip_prefix p s) as [r|] eqn:E; [|discriminate].
  intros _. exists r. apply strip_prefix_some, E.
Qed.

Lemma contains_true (x s : text) : contains x s = true <-> infix_of x s.
Proof.
  split.
  - induction s as [|c s IH]; simpl; intros H.
    + rewrite orb_false_r in H. apply starts_with_true in H.
      destruct H as [r ->]. exists [], r. reflexivity.
    + apply orb_true_iff in H. destruct H as [H|H].
      * apply starts_with_true in H. destruct H as [r ->].
        exists [], r. reflexivity.
      * destruct (IH H) as (a & b & ->). exists (c :: a), b. reflexivity.
  - intros (a & b & ->). induction a as [|c a IH].
    + change ([] ++ x ++ b) with (x ++ b).
      generalize (starts_with_app x b).
      destruct (x ++ b); simpl; intros ->; reflexivity.
    + simpl. simpl in IH. rewrite IH. apply orb_true_r.
Qed.

Lemma infix_of_app (x s a b : text) : infix_of x s -> infix_of x (a ++ s ++ b).
Proof.
  intros (a' & b' & ->). exists (a ++ a'), (b' ++ b).
  rewrite <- !app_assoc. reflexivity.
Qed.

(** Two texts that agree up to their first double quote. *)
Lemma first_dquote (u1 u2 x1 x2 : text) :
  ~ In dquote u1 -> ~ In dquote u2 ->
  u1 ++ dquote :: x1 = u2 ++ dquote :: x2 -> u1 = u2 /\ x1 = x2.
Proof.
  revert u2. induction u1 as [|c u1 IH]; intros [|d u2] N1 N2 H; simpl in *.
  - injection H as ->. auto.
  - injection H as <- _. exfalso. apply N2. auto.
  - injection H as -> _. exfalso. apply N1. auto.
  - injection H as -> H.
    destruct (IH u2) as [-> ->]; auto.
Qed.

(** ** The match at a position *)

Lemma group_then_sfx_sound (s u : text) :
  group_then_sfx s = Some u -> url_ok u /\ exists r, s = u ++ SFX ++ r.
Proof.
  revert u. induction s as [|c t IH]; intros u H; simpl in H; [discriminate|].
  destruct (is_dquote c) eqn:Q; [discriminate|].
  apply is_dquote_false in Q.
  destruct (group_then_sfx t) as [u'|] eqn:G.
  - injection H as <-. destruct (IH u' eq_refl) as [[_ N] [r ->]].
    split; [split; [discriminate|]|].
    + intros [E|E]; [congruence|tauto].
    + exists r. reflexivity.
  - destruct (starts_with SFX t) eqn:W; [|discriminate].
    injection H as <-. apply starts_with_true in W. destruct W as [r ->].
    split; [split; [discriminate|]|].
    + intros [E|[]]. congruence.
    + exists r. reflexivity.
Qed.

Lemma group_then_sfx_complete (u r : text) :
  url_ok u -> group_then_sfx (u ++ SFX ++ r) = Some u.
Proof.
  intros [NE N]. induction u as [|c u IH]; [congruence|].
  assert (Q : is_dquote c = false).
  { apply is_dquote_false. intros ->. apply N. left. reflexivity. }
  change ((c :: u) ++ SFX ++ r) with (c :: (u ++ SFX ++ r)).
  cbn [group_then_sfx]. rewrite Q. destruct u as [|d u].
  - change ([] ++ SFX ++ r) with (SFX ++ r).
    rewrite starts_with_app. reflexivity.
  - rewrite IH; [reflexivity|discriminate|].
    intros E. apply N. right. exact E.
Qed.

Lemma match_at_sound (s u : text) :
  match_at s = Some u -> url_ok u /\ exists r, s = PFX ++ u ++ SFX ++ r.
Proof.
  unfold match_at. destruct (strip_prefix PFX s) as [t|] eqn:E; [|discriminate].
  intros G. apply strip_prefix_some in E.
  destruct (group_then_sfx_sound _ G) as [K [r ->]].
  split; [exact K|]. exists r. exact E.
Qed.

Lemma match_at_complete (u r : text) :
  url_ok u -> match_at (PFX ++ u ++ SFX ++ r) = Some u.
Proof.
  intros K. unfold match_at. rewrite strip_prefix_app.
  apply group_then_sfx_complete, K.
Qed.

Lemma match_at_occurs_at (s : text) :
  occurs_at s <-> exists u, match_at s = Some u.
Proof.
  split.
  - intros (u & r & K & ->). exists u. apply match_at_complete, K.
  - intros [u H]. destruct (match_at_sound _ H) as [K [r ->]].
    exists u, r. auto.
Qed.

Lemma match_at_head (s u : text) :
  match_at s = Some u -> exists t, s = "<"%char :: t.
Proof.
  intros H. destruct (match_at_sound _ H) as [_ [r ->]].
  eexists. reflexivity.
Qed.

Lemma skipn_m_end (u r : text) : skipn (m_end u) (PFX ++ u ++ SFX ++ r) = r.
Proof.
  unfold m_end.
  replace (PFX ++ u ++ SFX ++ r) with ((PFX ++ u ++ SFX) ++ r)
    by (rewrite <- !app_assoc; reflexivity).
  replace (List.length PFX + List.length u + List.length SFX)
    with (List.length (PFX ++ u ++ SFX))
    by (rewrite !length_app; lia).
  rewrite skipn_app, skipn_all, Nat.sub_diag. reflexivity.
Qed.

(** ** The scan *)

Lemma scan_cons (c : ascii) (t : text) :
  scan (c :: t) =
  match match_at (c :: t) with
  | Some u => Match u :: scan (skipn (m_end u) (c :: t))
  | None => Lit c :: scan t
  end.
Proof.
  simp scan.
  destruct (inspect (match_at (c :: t))) as [[u|] E];
    cbn [scan_unfold_clause_2]; rewrite E; reflexivity.
Qed.

Lemma scan_nil : scan [] = [].
Proof. reflexivity. Qed.

Lemma scan_match (u r : text) :
  url_ok u -> scan (PFX ++ u ++ SFX ++ r) = Match u :: scan r.
Proof.
  intros K. pose proof (match_at_complete r K) as M.
  pose proof (skipn_m_end u r) as S.
  remember (PFX ++ u ++ SFX ++ r) as s eqn:E.
  destruct s as [|c t]; [discriminate|].
  rewrite scan_cons, M, S. reflexivity.
Qed.

Lemma scan_lit (c : ascii) (t : text) :
  match_at (c :: t) = None -> scan (c :: t) = Lit c :: scan t.
Proof. intros M. rewrite scan_cons, M. reflexivity. Qed.

(** The three ways a text is scanned, as a case analysis. *)
Lemma scan_cases (s : text) :
  s = [] \/
  (exists u r, url_ok u /\ s = PFX ++ u ++ SFX ++ r /\
               scan s = Match u :: scan r) \/
  (exists c t, s = c :: t /\ ~ occurs_at s /\ scan s = Lit c :: scan t).
Proof.
  destruct s as [|c t]; [left; reflexivity|right].
  destruct (match_at (c :: t)) as [u|] eqn:M.
  - left. destruct (match_at_sound _ M) as [K [r E]].
    exists u, r. split; [exact K|]. split; [exact E|].
    rewrite E. apply scan_match, K.
  - right. exists c, t. split; [reflexivity|]. split.
    + intros O. apply match_at_occurs_at in O. destruct O as [u O]. congruence.
    + apply scan_lit, M.
Qed.

(** Induction along the scan. *)
Lemma scan_ind (P : text -> Prop) :
  P [] ->
  (forall u r, url_ok u -> P r -> P (PFX ++ u ++ SFX ++ r)) ->
  (forall c t, ~ occurs_at (c :: t) -> P t -> P (c :: t)) ->
  forall s, P s.
Proof.
  intros Hnil Hmatch Hlit s.
  remember (List.length s) as n eqn:E. revert s E.
  induction n as [n IH] using lt_wf_ind. intros s E.
  destruct (scan_cases s) as [->|[(u & r & K & -> & _)|(c & t & -> & N & _)]].
  - exact Hnil.
  - apply Hmatch; [exact K|]. eapply IH; [|reflexivity].
    subst n. rewrite !length_app. simpl. lia.
  - apply Hlit; [exact N|]. eapply IH; [|reflexivity]. subst n. simpl. lia.
Qed.

Lemma re_sub_nil : re_sub [] = [].
Proof. reflexivity. Qed.

Lemma re_sub_match (u r : text) :
  url_ok u -> re_sub (PFX ++ u ++ SFX ++ r) = expand u ++ re_sub r.
Proof.
  intros K. unfold re_sub, re_subn. rewrite (scan_match r K).
  reflexivity.
Qed.

Lemma re_sub_lit (c : ascii) (t : text) :
  ~ occurs_at (c :: t) -> re_sub (c :: t) = c :: re_sub t.
Proof.
  intros N. unfold re_sub, re_subn. rewrite scan_lit; [reflexivity|].
  destruct (match_at (c :: t)) as [u|] eqn:M; [|reflexivity].
  exfalso. apply N, match_at_occurs_at. exists u. exact M.
Qed.

Lemma count_match (u r : text) :
  url_ok u -> snd (re_subn (PFX ++ u ++ SFX ++ r)) = S (snd (re_subn r)).
Proof.
  intros K. unfold re_subn. rewrite (scan_match r K). reflexivity.
Qed.

Lemma count_lit (c : ascii) (t : text) :
  ~ occurs_at (c :: t) -> snd (re_subn (c :: t)) = snd (re_subn t).
Proof.
  intros N. unfold re_subn. rewrite scan_lit; [reflexivity|].
  destruct (match_at (c :: t)) as [u|] eqn:M; [|reflexivity].
  exfalso. apply N, match_at_occurs_at. exists u. exact M.
Qed.

Lemma scan_lit' (c : ascii) (t : text) :
  ~ occurs_at (c :: t) -> scan (c :: t) = Lit c :: scan t.
Proof.
  intros N. apply scan_lit.
  destruct (match_at (c :: t)) as [u|] eqn:M; [|reflexivity].
  exfalso. apply N, match_at_occurs_at. exists u. exact M.
Qed.

Lemma occurs_at_nil : ~ occurs_at [].
Proof. intros (u & r & _ & E). discriminate E. Qed.

Lemma occurs_cons (c : ascii) (t : text) : occurs t -> occurs (c :: t).
Proof. intros (a & t' & -> & O). exists (c :: a), t'. auto. Qed.

Lemma occurs_cons_inv (c : ascii) (t : text) :
  ~ occurs_at (c :: t) -> occurs (c :: t) -> occurs t.
Proof.
  intros N ([|d a] & t' & E & O); simpl in E.
  - subst t'. contradiction.
  - injection E as _ ->. exists a, t'. auto.
Qed.

(** The pieces of the scan, read as the subject, give the subject back. *)
Lemma scan_source (s : text) : flat_map source (scan s) = s.
Proof.
  induction s as [|u r K IH|c t N IH] using scan_ind.
  - reflexivity.
  - rewrite (scan_match r K). cbn [flat_map source]. rewrite IH.
    rewrite <- !app_assoc. reflexivity.
  - rewrite (scan_lit' N). cbn [flat_map source]. rewrite IH. reflexivity.
Qed.

Lemma scan_urls_ok (s u : text) : In (Match u) (scan s) -> url_ok u.
Proof.
  induction s as [|u' r K IH|c t N IH] using scan_ind.
  - intros [].
  - rewrite (scan_match r K). intros [E|H]; [|exact (IH H)].
    injection E as <-. exact K.
  - rewrite (scan_lit' N). intros [E|H]; [discriminate|exact (IH H)].
Qed.

(** Every occurrence of the pattern starts at a match of the scan or inside
    one. *)
Lemma scan_covers (s a t : text) :
  s = a ++ t -> occurs_at t ->
  exists l1 u l2,
    scan s = l1 ++ Match u :: l2 /\
    List.length (flat_map source l1) <= List.length a /\
    List.length a < List.length (flat_map source l1) + m_end u.
Proof.
  revert a. induction s as [|u r K IH|c t0 N IH] using scan_ind; intros a E O.
  - symmetry in E. apply app_eq_nil in E. destruct E as [_ ->].
    destruct (occurs_at_nil O).
  - rewrite (scan_match r K).
    replace (PFX ++ u ++ SFX ++ r) with ((PFX ++ u ++ SFX) ++ r) in E
      by (rewrite <- !app_assoc; reflexivity).
    assert (L : List.length (source (Match u)) = m_end u)
      by (unfold m_end, source; rewrite !length_app; lia).
    change (PFX ++ u ++ SFX) with (source (Match u)) in E.
    remember (source (Match u)) as M eqn:EM.
    apply app_eq_app in E.
    destruct E as [l [[E1 E2]|[E1 E2]]].
    + destruct l as [|d l].
      * rewrite app_nil_r in E1. simpl in E2. subst t a.
        destruct (IH [] eq_refl O) as (l1 & u' & l2 & S1 & S2 & S3).
        exists (Match u :: l1), u', l2. rewrite S1. split; [reflexivity|].
        cbn [flat_map]. rewrite <- EM, length_app.
        simpl in S2, S3. lia.
      * exists [], u, (scan r). split; [reflexivity|]. simpl.
        rewrite <- L, E1, length_app. simpl. lia.
    + destruct (IH l E2 O) as (l1 & u' & l2 & S1 & S2 & S3).
      exists (Match u :: l1), u', l2. rewrite S1. split; [reflexivity|].
      cbn [flat_map]. rewrite <- EM, E1, !length_app. lia.
  - rewrite (scan_lit' N). destruct a as [|d a]; simpl in E.
    + subst t. contradiction.
    + injection E as <- E.
      destruct (IH a E O) as (l1 & u' & l2 & S1 & S2 & S3).
      exists (Lit c :: l1), u', l2. rewrite S1. split; [reflexivity|].
      cbn [flat_map source app List.length]. lia.
Qed.

Lemma app_inj_length (a b c d : text) :
  a ++ b = c ++ d -> List.length a = List.length c -> b = d.
Proof.
  revert c. induction a as [|x a IH]; intros [|y c] E L; simpl in *;
    try discriminate; [exact E|].
  injection E as _ E. injection L as L. exact (IH c E L).
Qed.

(** An occurrence that starts where a match of the scan starts is that
    match. *)
Lemma scan_covers_start (s a t : text) (l1 l2 : list piece) (u : text) :
  s = a ++ t -> scan s = l1 ++ Match u :: l2 ->
  List.length a = List.length (flat_map source l1) ->
  t = source (Match u) ++ flat_map source l2.
Proof.
  intros E S L. pose proof (scan_source s) as Src.
  rewrite S, flat_map_app, E in Src. cbn [flat_map] in Src.
  symmetry. eapply app_inj_length; [exact Src|]. symmetry. exact L.
Qed.

Lemma occurs_iff_count (s : text) : occurs s <-> 1 <= snd (re_subn s).
Proof.
  induction s as [|u r K IH|c t N IH] using scan_ind.
  - split; [|intros H; change (1 <= 0) in H; lia].
    intros (a & t & E & O). symmetry in E. apply app_eq_nil in E.
    destruct E as [_ ->]. destruct (occurs_at_nil O).
  - rewrite (count_match r K). split; [lia|]. intros _.
    exists [], (PFX ++ u ++ SFX ++ r). split; [reflexivity|].
    exists u, r. auto.
  - rewrite (count_lit N), <- IH. split.
    + apply occurs_cons_inv, N.
    + apply occurs_cons.
Qed.

Lemma length_expand (u : text) :
  List.length (expand u) = List.length (PFX ++ u ++ SFX) + 14.
Proof. unfold expand. rewrite !length_app. simpl. lia. Qed.

Lemma re_sub_length (s : text) :
  List.length (re_sub s) = List.length s + 14 * snd (re_subn s).
Proof.
  induction s as [|u r K IH|c t N IH] using scan_ind.
  - reflexivity.
  - rewrite (re_sub_match r K), (count_match r K).
    rewrite length_app, IH, length_expand, !length_app. lia.
  - rewrite (re_sub_lit N), (count_lit N). cbn [List.length]. rewrite IH. lia.
Qed.

Lemma re_sub_fixed (s : text) : ~ occurs s -> re_sub s = s.
Proof.
  induction s as [|u r K IH|c t N IH] using scan_ind; intros NO.
  - reflexivity.
  - exfalso. apply NO. exists [], (PFX ++ u ++ SFX ++ r).
    split; [reflexivity|]. exists u, r. auto.
  - rewrite (re_sub_lit N). f_equal. apply IH.
    intros O. apply NO, occurs_cons, O.
Qed.

Lemma changed_iff_occurs (s : text) : changed s = true <-> occurs s.
Proof.
  unfold changed. rewrite negb_true_iff, text_eqb_neq. split.
  - intros NE. apply occurs_iff_count.
    destruct (snd (re_subn s)) as [|n] eqn:C; [|lia].
    exfalso. apply NE, re_sub_fixed. rewrite occurs_iff_count, C. lia.
  - intros O E. apply occurs_iff_count in O.
    pose proof (re_sub_length s) as L. rewrite E in L. lia.
Qed.

(** ** What a second substitution can find *)

(** Membership in a literal is settled by running through it. *)
Ltac not_in_literal :=
  let H := fresh "H" in
  intros H; cbn in H;
  repeat (destruct H as [H|H]; [discriminate H|]); exact H.

Lemma unique_head (h : ascii) (w a m : text) :
  ~ In h w -> h :: w = a ++ h :: m -> a = [].
Proof.
  intros N E. destruct a as [|x a]; [reflexivity|].
  simpl in E. injection E as _ ->. exfalso. apply N, in_elt.
Qed.

Lemma expand_head (u y : text) :
  exists z, expand u ++ y = "<"%char :: z.
Proof. eexists. reflexivity. Qed.

Lemma expand_shape (u y : text) :
  exists z, expand u ++ y = lit "<script type=" ++ dquote :: "m"%char :: z.
Proof. eexists. reflexivity. Qed.

(** A literal without [<] at the head of the result stood at the head of
    the subject. *)
Lemma re_sub_keeps_prefix (w s x : text) :
  ~ In "<"%char w -> re_sub s = w ++ x ->
  exists s1, s = w ++ s1 /\ re_sub s1 = x.
Proof.
  revert s. induction w as [|ch w IH]; intros s N E.
  - exists s. auto.
  - destruct (scan_cases s) as [->|[(u & r & K & -> & _)|(c & t & -> & NO & _)]].
    + discriminate E.
    + rewrite (re_sub_match r K) in E.
      destruct (expand_head u (re_sub r)) as [z Z]. rewrite Z in E.
      injection E as <- _. exfalso. apply N. left. reflexivity.
    + rewrite (re_sub_lit NO) in E. injection E as -> E.
      destruct (IH t) as (s1 & -> & R); [|exact E|].
      * intros I. apply N. right. exact I.
      * exists s1. auto.
Qed.

(** A group and the closing literal at the head of the result stood at the
    head of the subject. *)
Lemma re_sub_keeps_group (u s x : text) :
  ~ In dquote u -> re_sub s = u ++ SFX ++ x ->
  exists s2, s = u ++ SFX ++ s2.
Proof.
  revert s. induction u as [|ch u IH]; intros s N E.
  - destruct (scan_cases s) as [->|[(u0 & r & K & -> & _)|(c & t & -> & NO & _)]].
    + discriminate E.
    + rewrite (re_sub_match r K) in E.
      destruct (expand_head u0 (re_sub r)) as [z Z]. rewrite Z in E.
      discriminate E.
    + rewrite (re_sub_lit NO) in E. injection E as -> E.
      destruct (@re_sub_keeps_prefix (lit " defer>") t x) as (s1 & -> & _).
      * not_in_literal.
      * exact E.
      * exists s1. reflexivity.
  - destruct (scan_cases s) as [->|[(u0 & r & K & -> & _)|(c & t & -> & NO & _)]].
    + discriminate E.
    + rewrite (re_sub_match r K) in E.
      destruct (expand_shape u0 (re_sub r)) as [z Z]. rewrite Z in E.
      change ((ch :: u) ++ SFX ++ x)
        with ((ch :: u) ++ dquote :: " "%char :: lit "defer>" ++ x) in E.
      apply first_dquote in E.
      * destruct E as [_ E]. discriminate E.
      * not_in_literal.
      * exact N.
    + rewrite (re_sub_lit NO) in E. injection E as -> E.
      destruct (IH t) as [s2 ->]; [|exact E|].
      * intros I. apply N. right. exact I.
      * exists s2. reflexivity.
Qed.

(** An occurrence that starts at a kept character was there before. *)
Lemma occurs_at_after_sub (c : ascii) (t : text) :
  occurs_at (c :: re_sub t) -> occurs_at (c :: t).
Proof.
  intros (u & r & K & E).
  change (PFX ++ u ++ SFX ++ r)
    with ("<"%char :: (lit "script src=" ++ [dquote]) ++ u ++ SFX ++ r) in E.
  injection E as -> E.
  change (re_sub t = (lit "script src=" ++ [dquote]) ++ (u ++ SFX ++ r)) in E.
  apply re_sub_keeps_prefix in E; [|not_in_literal].
  destruct E as (s1 & -> & E).
  apply re_sub_keeps_group in E; [|exact (proj2 K)].
  destruct E as [s2 ->]. exists u, s2. split; [exact K|reflexivity].
Qed.

Lemma infix_of_cons (x s : text) (c : ascii) :
  infix_of x s -> infix_of x (c :: s).
Proof. intros (a & b & ->). exists (c :: a), b. reflexivity. Qed.

Lemma infix_of_app_l (x s p : text) : infix_of x s -> infix_of x (p ++ s).
Proof.
  intros (a & b & ->). exists (p ++ a), b. rewrite <- app_assoc. reflexivity.
Qed.

(** An occurrence that starts in the group of a replaced tag, or in the
    closing literal after it: the group ends with the opening literal up to
    its double quote. *)
Lemma occurs_in_group (u m l y z : text) :
  ~ In dquote u -> u ++ NEW_SFX = m ++ "<"%char :: l ->
  l ++ y = lit "script src=" ++ dquote :: z ->
  u = m ++ lit "<script src=".
Proof.
  intros N E O. apply app_eq_app in E.
  destruct E as [n [[E3 E4]|[E3 E4]]].
  - destruct n as [|d n]; [discriminate E4|].
    injection E4 as <- E4. subst l.
    assert (N' : ~ In dquote ("<"%char :: n)).
    { intros I. apply N. rewrite E3. apply in_or_app. right. exact I. }
    rewrite <- app_assoc in O.
    assert (O' : ("<"%char :: n) ++ dquote :: lit " defer>" ++ y =
                 lit "<script src=" ++ dquote :: z)
      by (simpl; f_equal; exact O).
    apply first_dquote in O'; [|exact N'|not_in_literal].
    destruct O' as [O' _]. rewrite E3, O'. reflexivity.
  - exfalso. assert (I : In "<"%char NEW_SFX) by (rewrite E4; apply in_elt).
    revert I. not_in_literal.
Qed.

(** An occurrence that starts inside the text of a replaced tag. *)
Lemma occurs_in_expand (u a l y : text) :
  url_ok u -> l <> [] -> expand u = a ++ l -> occurs_at (l ++ y) ->
  exists m, u = m ++ lit "<script src=".
Proof.
  intros K NE E O.
  destruct l as [|d l]; [congruence|clear NE].
  destruct O as (u2 & r2 & K2 & O).
  change (PFX ++ u2 ++ SFX ++ r2)
    with ("<"%char :: (lit "script src=" ++ dquote :: u2 ++ SFX ++ r2)) in O.
  injection O as -> O.
  unfold expand in E. apply app_eq_app in E.
  destruct E as [m [[E1 E2]|[E1 E2]]].
  - destruct m as [|d m].
    + exists []. apply (@occurs_in_group u [] l y (u2 ++ SFX ++ r2));
        [exact (proj2 K)|symmetry; exact E2|exact O].
    + (* the occurrence would start in the new opening literal *)
      exfalso. injection E2 as <- E2.
      change NEW_PFX with ("<"%char :: tl NEW_PFX) in E1.
      pose proof E1 as E1'. apply unique_head in E1'; [|not_in_literal].
      subst a. simpl in E1. injection E1 as <-.
      subst l. simpl in O. discriminate O.
  - exists m. apply (@occurs_in_group u m l y (u2 ++ SFX ++ r2));
      [exact (proj2 K)|exact E2|exact O].
Qed.

(** An occurrence in the result of the substitution comes from an opening
    literal that an earlier match closed. *)
Lemma no_rematch (s a t : text) :
  re_sub s = a ++ t -> occurs_at t -> infix_of NESTED s.
Proof.
  revert a. induction s as [|u r K IH|c t0 N IH] using scan_ind; intros a E O.
  - symmetry in E. apply app_eq_nil in E. destruct E as [_ ->].
    destruct (occurs_at_nil O).
  - rewrite (re_sub_match r K) in E. apply app_eq_app in E.
    destruct E as [l [[E1 E2]|[E1 E2]]].
    + destruct l as [|d l].
      * simpl in E2. subst t.
        replace (PFX ++ u ++ SFX ++ r) with ((PFX ++ u ++ SFX) ++ r)
          by (rewrite <- !app_assoc; reflexivity).
        apply infix_of_app_l. apply (IH [] eq_refl O).
      * subst t. destruct (@occurs_in_expand u a (d :: l) (re_sub r)) as [m ->];
          [exact K|discriminate|exact E1|exact O|].
        exists (PFX ++ m), r. unfold NESTED. rewrite <- !app_assoc.
        reflexivity.
    + replace (PFX ++ u ++ SFX ++ r) with ((PFX ++ u ++ SFX) ++ r)
        by (rewrite <- !app_assoc; reflexivity).
      apply infix_of_app_l. apply (IH l E2 O).
  - rewrite (re_sub_lit N) in E. destruct a as [|d a]; simpl in E.
    + subst t. destruct (N (@occurs_at_after_sub c t0 O)).
    + injection E as <- E. apply infix_of_cons. apply (IH a E O).
Qed.

Lemma re_sub_stable (s : text) :
  contains NESTED s = false -> ~ occurs (re_sub s).
Proof.
  intros C (a & t & E & O).
  assert (I : contains NESTED s = true).
  { apply contains_true. exact (@no_rematch s a t E O). }
  congruence.
Qed.

(** ** Texts that the scan copies *)

Lemma occurs_at_head (c : ascii) (t : text) :
  occurs_at (c :: t) -> c = "<"%char.
Proof. intros (u & r & _ & E). injection E as -> _. reflexivity. Qed.

(** Characters other than [<] start no match. *)
Lemma scan_copies (w r : text) :
  ~ In "<"%char w -> scan (w ++ r) = map Lit w ++ scan r.
Proof.
  induction w as [|c w IH]; intros N; [reflexivity|].
  change ((c :: w) ++ r) with (c :: (w ++ r)). rewrite scan_lit'.
  - simpl. f_equal. apply IH. intros I. apply N. right. exact I.
  - intros O. apply occurs_at_head in O. apply N. left. exact O.
Qed.

Lemma target_map_Lit (w : text) : flat_map target (map Lit w) = w.
Proof. induction w as [|c w IH]; [reflexivity|]. simpl. rewrite IH. reflexivity. Qed.

Lemma filter_map_Lit (w : text) : filter is_match (map Lit w) = [].
Proof. induction w as [|c w IH]; [reflexivity|exact IH]. Qed.

Lemma re_subn_copies (w r : text) :
  ~ In "<"%char w ->
  re_subn (w ++ r) = (w ++ re_sub r, snd (re_subn r)).
Proof.
  intros N. unfold re_sub, re_subn. rewrite (@scan_copies w r N).
  cbv zeta. cbn [fst snd].
  rewrite flat_map_app, target_map_Lit, filter_app, filter_map_Lit.
  reflexivity.
Qed.

Lemma re_sub_copies (w r : text) :
  ~ In "<"%char w -> re_sub (w ++ r) = w ++ re_sub r.
Proof.
  intros N. unfold re_sub at 1. rewrite (@re_subn_copies w r N). reflexivity.
Qed.

Lemma not_in_app (c : ascii) (a b : text) :
  ~ In c a -> ~ In c b -> ~ In c (a ++ b).
Proof. intros Na Nb I. apply in_app_or in I. tauto. Qed.

Lemma occurs_infix_PFX (s : text) : occurs s -> infix_of PFX s.
Proof.
  intros (a & t & -> & u & r & _ & ->). exists a, (u ++ SFX ++ r).
  reflexivity.
Qed.

(** A tag that already has the module type starts no match. *)
Lemma not_occurs_at_expand (u r : text) : ~ occurs_at (expand u ++ r).
Proof. intros (u' & r' & _ & E). discriminate E. Qed.

(** A tag with an empty [src] starts no match. *)
Lemma not_occurs_at_empty_url (r : text) : ~ occurs_at (PFX ++ SFX ++ r).
Proof.
  intros O. apply match_at_occurs_at in O. destruct O as [u M].
  unfold match_at in M. rewrite strip_prefix_app in M. discriminate M.
Qed.

(** ** The group without backtracking *)

Lemma take_url_head (t : text) (d : ascii) (u : text) :
  take_url t = d :: u -> starts_with SFX t = false.
Proof.
  destruct t as [|c t]; [discriminate|]. simpl.
  destruct (is_dquote c) eqn:Q; [discriminate|]. intros _.
  destruct (starts_with SFX (c :: t)) eqn:W; [|reflexivity].
  apply starts_with_true in W. destruct W as [r E]. injection E as -> _.
  discriminate Q.
Qed.

Lemma group_then_sfx_first_quote (r : text) :
  group_then_sfx r =
  match take_url r with
  | [] => None
  | u => if starts_with SFX (skipn (List.length u) r) then Some u else None
  end.
Proof.
  induction r as [|c t IH]; [reflexivity|].
  cbn [group_then_sfx take_url]. destruct (is_dquote c); [reflexivity|].
  rewrite IH. destruct (take_url t) as [|d u] eqn:T.
  - reflexivity.
  - cbv zeta. rewrite (@take_url_head t d u T).
    change (skipn (List.length (c :: d :: u)) (c :: t))
      with (skipn (List.length (d :: u)) t).
    destruct (starts_with SFX (skipn (List.length (d :: u)) t)); reflexivity.
Qed.

Lemma count_bound (s : text) : 22 * snd (re_subn s) <= List.length s.
Proof.
  induction s as [|u r K IH|c t N IH] using scan_ind.
  - change (22 * 0 <= 0). lia.
  - rewrite (count_match r K), !length_app.
    assert (1 <= List.length u) by (destruct u; [destruct (proj1 K eq_refl)|simpl; lia]).
    change (List.length PFX) with 13. change (List.length SFX) with 8. lia.
  - rewrite (count_lit N). cbn [List.length]. lia.
Qed.

End ReFacts.

(** * Properties of the walk and of the script *)

Module FsFacts.
Import Re Fs ReFacts.

(** ** Directory trees *)

(** Induction on a tree, with the hypothesis on every entry of a
    directory. *)
Fixpoint node_ind' (P : node -> Prop)
  (HF : forall c, P (File c))
  (HD : forall es, Forall (fun e => P (snd e)) es -> P (Dir es))
  (n : node) : P n :=
  match n with
  | File c => HF c
  | Dir es =>
      HD es
        ((fix go (l : list (string * node)) : Forall (fun e => P (snd e)) l :=
            match l with
            | [] => Forall_nil _
            | e :: l' => Forall_cons e (node_ind' P HF HD (snd e)) (go l')
            end) es)
  end.

Lemma nodupb_NoDup (l : list string) : nodupb l = true -> NoDup l.
Proof.
  induction l as [|x l IH]; simpl; intros H; [constructor|].
  apply andb_true_iff in H. destruct H as [H1 H2].
  constructor; [|exact (IH H2)].
  intros I. apply negb_true_iff in H1.
  assert (E : existsb (String.eqb x) l = true).
  { apply existsb_exists. exists x. split; [exact I|apply String.eqb_refl]. }
  congruence.
Qed.

Lemma wf_node_dir (es : list (string * node)) :
  wf_node (Dir es) = true ->
  NoDup (map fst es) /\ forall e, In e es -> wf_node (snd e) = true.
Proof.
  simpl. intros H. apply andb_true_iff in H. destruct H as [H1 H2].
  split; [apply nodupb_NoDup, H1|].
  intros e I. rewrite forallb_forall in H2. exact (H2 e I).
Qed.

Lemma lookup_some (es : list (string * node)) (name : string) (n : node) :
  lookup name es = Some n -> In (name, n) es.
Proof.
  unfold lookup.
  destruct (find (fun e => String.eqb (fst e) name) es) as [e|] eqn:F;
    [|discriminate].
  intros H. injection H as <-. apply find_some in F. destruct F as [I E].
  apply String.eqb_eq in E. subst name. destruct e. exact I.
Qed.

Lemma lookup_in (es : list (string * node)) (e : string * node) :
  NoDup (map fst es) -> In e es -> lookup (fst e) es = Some (snd e).
Proof.
  unfold lookup. induction es as [|e0 es IH]; intros ND I; [destruct I|].
  simpl in ND. apply NoDup_cons_iff in ND. destruct ND as [NI ND].
  simpl. destruct I as [->|I].
  - rewrite String.eqb_refl. reflexivity.
  - destruct (String.eqb (fst e0) (fst e)) eqn:E.
    + apply String.eqb_eq in E. exfalso. apply NI. rewrite E.
      apply in_map, I.
    + apply IH; assumption.
Qed.

Lemma NoDup_map_fst_filter (g : string * node -> bool)
  (es : list (string * node)) :
  NoDup (map fst es) -> NoDup (map fst (filter g es)).
Proof.
  induction es as [|e es IH]; simpl; intros ND; [constructor|].
  apply NoDup_cons_iff in ND. destruct ND as [NI ND].
  destruct (g e); [|exact (IH ND)].
  simpl. constructor; [|exact (IH ND)].
  intros I. apply NI. apply in_map_iff in I. destruct I as (e' & E & I).
  apply filter_In in I. rewrite <- E. apply in_map, (proj1 I).
Qed.

Lemma os_path_join_inj (root : path) (a b : string) :
  os_path_join root a = os_path_join root b -> a = b.
Proof.
  unfold os_path_join. intros E. apply app_inv_head in E. congruence.
Qed.

(** ** The paths that the walk lists *)

Lemma listed_cons (f : string -> bool) t ts :
  listed f (t :: ts) =
  map (os_path_join (fst (fst t))) (filter f (snd t)) ++ listed f ts.
Proof. reflexivity. Qed.

Lemma listed_app (f : string -> bool) l1 l2 :
  listed f (l1 ++ l2) = listed f l1 ++ listed f l2.
Proof. unfold listed. apply flat_map_app. Qed.

Lemma listed_flat_map (f : string -> bool) (A : Type)
  (g : A -> list (path * list string * list string)) (l : list A) :
  listed f (flat_map g l) = flat_map (fun a => listed f (g a)) l.
Proof.
  induction l as [|a l IH]; [reflexivity|].
  simpl. rewrite listed_app, IH. reflexivity.
Qed.

Lemma listed_walk_dir (f : string -> bool) (top : path)
  (es : list (string * node)) :
  listed f (walk_node top (Dir es)) =
  map (os_path_join top) (filter f (files_of es)) ++
  flat_map (fun e => listed f (walk_node (os_path_join top (fst e)) (snd e)))
           es.
Proof.
  cbn [walk_node]. rewrite listed_cons, listed_flat_map. reflexivity.
Qed.

Lemma in_files_of (es : list (string * node)) (x : string) :
  In x (files_of es) <-> exists c, In (x, File c) es.
Proof.
  unfold files_of. rewrite in_map_iff. split.
  - intros ([y n] & E & I). simpl in E. subst y.
    apply filter_In in I. destruct I as [I D].
    destruct n as [c|sub]; [|discriminate]. exists c. exact I.
  - intros [c I]. exists (x, File c). split; [reflexivity|].
    apply filter_In. auto.
Qed.

Lemma read_at_file (names : list string) (c c' : text) :
  read_at names (File c) = Some c' -> names = [].
Proof. destruct names; [reflexivity|discriminate]. Qed.

(** Under distinct names, the walk lists the files below the top whose name
    passes the test, and nothing else. *)
Lemma listed_walk_in (f : string -> bool) (n : node) :
  forall (top p : path), wf_node n = true ->
  (In p (listed f (walk_node top n)) <->
   exists names c, names <> [] /\ p = top ++ names /\
                   read_at names n = Some c /\
                   f (last names EmptyString) = true).
Proof.
  induction n as [c0|es IH] using node_ind'; intros top p W.
  - split; [intros []|].
    intros (names & c & NE & _ & R & _).
    apply read_at_file in R. contradiction.
  - destruct (wf_node_dir es W) as [ND WE].
    rewrite listed_walk_dir, in_app_iff. rewrite Forall_forall in IH. split.
    + intros [I|I].
      * apply in_map_iff in I. destruct I as (x & <- & I).
        apply filter_In in I. destruct I as [I F].
        apply in_files_of in I. destruct I as [c I].
        exists [x], c. split; [discriminate|]. split; [reflexivity|].
        split; [|exact F].
        pose proof (@lookup_in es (x, File c) ND I) as L. simpl in L.
        simpl. rewrite L. reflexivity.
      * apply in_flat_map in I. destruct I as (e & Ie & I).
        apply (IH e Ie) in I; [|exact (WE e Ie)].
        destruct I as (names & c & NE & -> & R & F).
        exists (fst e :: names), c. split; [discriminate|].
        split; [unfold os_path_join; rewrite <- app_assoc; reflexivity|].
        split.
        -- simpl. rewrite (@lookup_in es e ND Ie). exact R.
        -- destruct names; [congruence|exact F].
    + intros (names & c & NE & -> & R & F).
      destruct names as [|x rest]; [congruence|]. simpl in R.
      destruct (lookup x es) as [n'|] eqn:L; [|discriminate].
      apply lookup_some in L. destruct rest as [|y rest].
      * left. destruct n' as [c'|sub]; [|discriminate].
        apply in_map_iff. exists x. split; [reflexivity|].
        apply filter_In. split; [|exact F].
        apply in_files_of. exists c'. exact L.
      * right. apply in_flat_map. exists (x, n'). split; [exact L|].
        apply (IH (x, n') L); [exact (WE _ L)|].
        exists (y :: rest), c. split; [discriminate|].
        split; [unfold os_path_join; rewrite <- app_assoc; reflexivity|].
        split; [exact R|exact F].
Qed.

Lemma NoDup_listed_walk (f : string -> bool) (n : node) :
  forall top : path, wf_node n = true -> NoDup (listed f (walk_node top n)).
Proof.
  induction n as [c0|es IH] using node_ind'; intros top W.
  - constructor.
  - destruct (wf_node_dir es W) as [ND WE].
    rewrite listed_walk_dir. rewrite Forall_forall in IH.
    apply NoDup_app.
    + apply Injective_map_NoDup.
      * intros a b. apply os_path_join_inj.
      * apply NoDup_filter. unfold files_of.
        apply NoDup_map_fst_filter, ND.
    + clear W. induction es as [|e es IHes]; [constructor|].
      simpl in ND. apply NoDup_cons_iff in ND. destruct ND as [NI ND].
      simpl. apply NoDup_app.
      * apply IH; [left; reflexivity|apply WE; left; reflexivity].
      * apply IHes; [intros; apply IH; [right|]; assumption|exact ND|].
        intros e' I. apply WE. right. exact I.
      * intros p I1 I2.
        apply listed_walk_in in I1; [|apply WE; left; reflexivity].
        destruct I1 as (n1 & _ & _ & -> & _).
        apply in_flat_map in I2. destruct I2 as (e' & Ie' & I2).
        apply listed_walk_in in I2; [|apply WE; right; exact Ie'].
        destruct I2 as (n2 & _ & _ & E & _).
        unfold os_path_join in E. rewrite <- !app_assoc in E.
        apply app_inv_head in E. injection E as E _.
        apply NI. rewrite E. apply in_map, Ie'.
    + intros p I1 I2.
      apply in_map_iff in I1. destruct I1 as (x & <- & _).
      apply in_flat_map in I2. destruct I2 as (e & Ie & I2).
      apply listed_walk_in in I2; [|exact (WE e Ie)].
      destruct I2 as (names & _ & NE & E & _).
      unfold os_path_join in E. rewrite <- app_assoc in E.
      apply app_inv_head in E. injection E as _ E. congruence.
Qed.

(** ** The loops *)

Lemma path_eqb_eq (p q : path) : path_eqb p q = true <-> p = q.
Proof.
  unfold path_eqb. destruct (list_eq_dec string_dec p q); split; congruence.
Qed.

Lemma path_eqb_refl (p : path) : path_eqb p p = true.
Proof. apply path_eqb_eq. reflexivity. Qed.

Lemma path_eqb_neq (p q : path) : p <> q -> path_eqb p q = false.
Proof.
  intros N. destruct (path_eqb p q) eqn:E; [|reflexivity].
  apply path_eqb_eq in E. contradiction.
Qed.

(** What one call of [fix_html] does on a file that opens. *)
Lemma fix_html_some (p : path) (w : world) (c : text) :
  files w p = Some c ->
  exists w',
    fix_html p w = Some (w', changed c) /\
    (forall q, files w' q =
               if path_eqb q p then Some (re_sub c) else files w q) /\
    trace w' =
      (if changed c then [OpenWrite p] else []) ++ OpenRead p :: trace w.
Proof.
  intros R. unfold fix_html. rewrite R. cbv zeta.
  fold (changed c). destruct (changed c) eqn:C.
  - eexists. split; [reflexivity|]. split; [|reflexivity].
    intros q. reflexivity.
  - eexists. split; [reflexivity|]. split; [|reflexivity].
    intros q. simpl. destruct (path_eqb q p) eqn:E; [|reflexivity].
    apply path_eqb_eq in E. subst q. rewrite R. f_equal.
    unfold changed in C. apply negb_false_iff, text_eqb_eq in C.
    symmetry. exact C.
Qed.

Lemma visit_file_fold (root : path) (names : list string) :
  forall acc,
    fold_left (visit_file root) names acc =
    fold_left step (map (os_path_join root) (filter is_html names)) acc.
Proof.
  induction names as [|name names IH]; intros acc; [reflexivity|].
  cbn [fold_left filter]. rewrite IH.
  unfold visit_file, step.
  destruct acc as [w count|w]; unfold is_html at 2;
    destruct (endswith name ".html"); reflexivity.
Qed.

Lemma visit_dir_fold (triples : list (path * list string * list string)) :
  forall acc,
    fold_left visit_dir triples acc =
    fold_left step (listed is_html triples) acc.
Proof.
  induction triples as [|[[root ds] names] ts IH]; intros acc; [reflexivity|].
  rewrite listed_cons, fold_left_app. cbn [fold_left fst snd].
  rewrite IH. unfold visit_dir. rewrite visit_file_fold. reflexivity.
Qed.

(** The loops on paths that are distinct and all open. *)
Lemma fold_step (ps : list path) :
  forall (w : world) (n0 : nat),
    NoDup ps ->
    (forall p, In p ps -> exists c, files w p = Some c) ->
    exists w',
      fold_left step ps (Running w n0) =
        Running w' (n0 + List.length (filter (changed_at w) ps)) /\
      (forall q, In q ps -> files w' q = option_map re_sub (files w q)) /\
      (forall q, ~ In q ps -> files w' q = files w q) /\
      (forall e, In e (trace w') <->
                 In e (trace w) \/
                 exists p, In p ps /\
                           (e = OpenRead p \/
                            (e = OpenWrite p /\ changed_at w p = true))).
Proof.
  induction ps as [|p ps IH]; intros w n0 ND R.
  - exists w. split; [simpl; f_equal; lia|].
    split; [intros q []|]. split; [reflexivity|].
    intros e. split; [auto|]. intros [I|(p & [] & _)]. exact I.
  - apply NoDup_cons_iff in ND. destruct ND as [NI ND].
    destruct (R p (or_introl eq_refl)) as [c Rp].
    destruct (fix_html_some p w Rp) as (w1 & F & Fl & Tr).
    assert (Same : forall q, In q ps -> files w1 q = files w q).
    { intros q I. rewrite Fl, path_eqb_neq; [reflexivity|].
      intros ->. contradiction. }
    assert (SameC : filter (changed_at w1) ps = filter (changed_at w) ps).
    { apply filter_ext_in. intros q I. unfold changed_at.
      rewrite (Same q I). reflexivity. }
    destruct (IH w1 (if changed c then n0 + 1 else n0) ND)
      as (w' & Fo & Hin & Hout & Htr).
    { intros q I. rewrite (Same q I). apply R. right. exact I. }
    exists w'. split; [|split; [|split]].
    + cbn [fold_left step]. rewrite F.
      assert (Cp : changed_at w p = changed c)
        by (unfold changed_at; rewrite Rp; reflexivity).
      cbn [filter]. rewrite Cp. rewrite SameC in Fo.
      destruct (changed c); rewrite Fo; f_equal;
        cbn [List.length]; lia.
    + intros q [<-|I].
      * rewrite (Hout p NI), Fl, path_eqb_refl, Rp. reflexivity.
      * rewrite (Hin q I), (Same q I). reflexivity.
    + intros q NQ. rewrite Hout, Fl, path_eqb_neq; [reflexivity| |].
      * intros ->. apply NQ. left. reflexivity.
      * intros I. apply NQ. right. exact I.
    + intros e. rewrite Htr, Tr. rewrite in_app_iff. cbn [In].
      assert (Cp : changed_at w p = changed c)
        by (unfold changed_at; rewrite Rp; reflexivity).
      split.
      * intros [[I|[<-|I]]|(q & I & H)].
        -- right. exists p. split; [left; reflexivity|]. right.
           destruct (changed c); [|destruct I].
           destruct I as [<-|[]]. rewrite Cp. auto.
        -- right. exists p. split; [left; reflexivity|]. left. reflexivity.
        -- left. exact I.
        -- right. exists q. split; [right; exact I|].
           unfold changed_at in *. rewrite <- (Same q I). exact H.
      * intros [I|(q & [<-|I] & H)].
        -- left. right. right. exact I.
        -- destruct H as [->|[-> C]].
           ++ left. right. left. reflexivity.
           ++ left. left. rewrite <- Cp, C. left. reflexivity.
        -- right. exists q. split; [exact I|].
           unfold changed_at in *. rewrite (Same q I). exact H.
Qed.

(** ** The run *)

Lemma targets_in (fs : filesystem) (d : string) (p : path) :
  os_path_isdir fs d = true -> well_formed fs d = true ->
  (In p (targets fs d) <->
   (exists names, names <> [] /\ p = d :: names) /\
   is_file fs p /\ is_html (basename p) = true).
Proof.
  unfold os_path_isdir, well_formed, targets, os_walk, is_file.
  destruct (fs d) as [n|] eqn:E; [|discriminate]. intros _ W.
  rewrite (listed_walk_in is_html n [d] p W). split.
  - intros (names & c & NE & -> & R & F).
    split; [exists names; auto|]. split.
    + exists c. simpl. rewrite E. exact R.
    + unfold basename. destruct names; [congruence|exact F].
  - intros ((names & NE & ->) & (c & R) & F).
    exists names, c. split; [exact NE|]. split; [reflexivity|].
    simpl in R. rewrite E in R. split; [exact R|].
    unfold basename in F. destruct names; [congruence|exact F].
Qed.

Lemma NoDup_targets (fs : filesystem) (d : string) :
  well_formed fs d = true -> NoDup (targets fs d).
Proof.
  unfold well_formed, targets, os_walk.
  destruct (fs d) as [n|]; [|constructor].
  apply NoDup_listed_walk.
Qed.

(** A run on an existing directory whose names are distinct. *)
Lemma main_run (argv : list string) (fs : filesystem) :
  let d := dist_dir_of argv in
  let w0 := init_world fs in
  os_path_isdir fs d = true -> well_formed fs d = true ->
  exists w',
    main argv fs =
      Exit (fixed_line (List.length (filter (changed_at w0) (targets fs d))) d)
           EmptyString 0 w' /\
    (forall q, In q (targets fs d) ->
               files w' q = option_map re_sub (fs_read fs q)) /\
    (forall q, ~ In q (targets fs d) -> files w' q = fs_read fs q) /\
    (forall e, In e (trace w') <->
               exists p, In p (targets fs d) /\
                         (e = OpenRead p \/
                          (e = OpenWrite p /\ changed_at w0 p = true))).
Proof.
  intros d w0 D W.
  destruct (@fold_step (targets fs d) w0 0 (NoDup_targets fs d W))
    as (w' & Fo & Hin & Hout & Htr).
  { intros p I. apply (targets_in fs d p D W) in I.
    destruct I as (_ & R & _). exact R. }
  exists w'. split; [|split; [exact Hin|split; [exact Hout|]]].
  - unfold main. fold d. fold w0. rewrite D. cbn [negb].
    unfold walk_loop. rewrite visit_dir_fold. fold (targets fs d).
    rewrite Fo. reflexivity.
  - intros e. rewrite Htr. simpl. split.
    + intros [[]|H]. exact H.
    + intros H. right. exact H.
Qed.

(** ** The opens of a run, in order *)

Lemma flat_map_ext_in (A B : Type) (f g : A -> list B) (l : list A) :
  (forall a, In a l -> f a = g a) -> flat_map f l = flat_map g l.
Proof.
  induction l as [|a l IH]; intros H; [reflexivity|].
  simpl. rewrite (H a (or_introl eq_refl)). f_equal.
  apply IH. intros b I. apply H. right. exact I.
Qed.

Lemma fold_step_trace (ps : list path) :
  forall (w : world) (n0 : nat),
    NoDup ps ->
    (forall p, In p ps -> exists c, files w p = Some c) ->
    forall w' n, fold_left step ps (Running w n0) = Running w' n ->
    rev (trace w') = rev (trace w) ++ flat_map (opens_of w) ps.
Proof.
  induction ps as [|p ps IH]; intros w n0 ND R w' n Fo.
  - simpl in Fo. injection Fo as <- _. simpl. rewrite app_nil_r. reflexivity.
  - apply NoDup_cons_iff in ND. destruct ND as [NI ND].
    destruct (R p (or_introl eq_refl)) as [c Rp].
    destruct (@fix_html_some p w c Rp) as (w1 & F & Fl & Tr).
    assert (Same : forall q, In q ps -> files w1 q = files w q).
    { intros q I. rewrite Fl, path_eqb_neq; [reflexivity|].
      intros ->. contradiction. }
    cbn [fold_left step] in Fo. rewrite F in Fo.
    assert (Fo' : exists n1, fold_left step ps (Running w1 n1) = Running w' n)
      by (destruct (changed c); eexists; exact Fo).
    destruct Fo' as [n1 Fo'].
    rewrite (IH w1 n1 ND) with (w' := w') (n := n); [|
      intros q I; rewrite (Same q I); apply R; right; exact I|exact Fo'].
    rewrite Tr. cbn [flat_map].
    assert (E : flat_map (opens_of w1) ps = flat_map (opens_of w) ps).
    { apply flat_map_ext_in. intros q I. unfold opens_of, changed_at.
      rewrite (Same q I). reflexivity. }
    rewrite E. unfold opens_of at 2, changed_at. rewrite Rp.
    destruct (changed c); simpl; rewrite <- !app_assoc; reflexivity.
Qed.

Lemma writes_of_opens (w : world) (ps : list path) :
  List.length (filter is_write (flat_map (opens_of w) ps)) =
  List.length (filter (changed_at w) ps).
Proof.
  induction ps as [|p ps IH]; [reflexivity|].
  cbn [flat_map filter]. rewrite filter_app, length_app, IH.
  unfold opens_of. destruct (changed_at w p); reflexivity.
Qed.

Lemma main_run_fold (argv : list string) (fs : filesystem) :
  os_path_isdir fs (dist_dir_of argv) = true ->
  main argv fs =
  match fold_left step (targets fs (dist_dir_of argv))
          (Running (init_world fs) 0) with
  | Running w count =>
      Exit (fixed_line count (dist_dir_of argv)) EmptyString 0 w
  | Raised w => Uncaught w
  end.
Proof.
  intros D. unfold main. rewrite D. cbn [negb].
  unfold walk_loop. rewrite visit_dir_fold. reflexivity.
Qed.

(** ** The tree after a run *)

Lemma lookup_patch (name : string) (es : list (string * node)) :
  lookup name (map (fun e => (fst e, patch_node (fst e) (snd e))) es) =
  option_map (patch_node name) (lookup name es).
Proof.
  unfold lookup. induction es as [|e es IH]; [reflexivity|].
  simpl. destruct (String.eqb (fst e) name) eqn:E.
  - apply String.eqb_eq in E. rewrite E. reflexivity.
  - exact IH.
Qed.

Lemma last_cons (A : Type) (x d : A) (l : list A) :
  last (x :: l) d = last l x.
Proof.
  revert x d. induction l as [|y l IH]; intros x d; [reflexivity|].
  change (last (x :: y :: l) d) with (last (y :: l) d).
  rewrite (IH y d), (IH y x). reflexivity.
Qed.

Lemma read_at_patch (n : node) :
  forall (name : string) (names : list string),
    read_at names (patch_node name n) =
    if is_html (last names name)
    then option_map re_sub (read_at names n)
    else read_at names n.
Proof.
  induction n as [c|es IH] using node_ind'; intros name names.
  - destruct names as [|x rest].
    + simpl. destruct (is_html name); reflexivity.
    + cbn [patch_node].
      destruct (is_html name), (is_html (last (x :: rest) name));
        reflexivity.
  - destruct names as [|x rest].
    + simpl. destruct (is_html name); reflexivity.
    + cbn [patch_node read_at]. rewrite lookup_patch, last_cons.
      destruct (lookup x es) as [n'|] eqn:L.
      * simpl. rewrite Forall_forall in IH.
        apply (IH (x, n') (lookup_some _ _ L)).
      * simpl. destruct (is_html (last rest x)); reflexivity.
Qed.

Lemma patch_node_is_dir (e : string * node) :
  is_dir (fst e, patch_node (fst e) (snd e)) = is_dir e.
Proof.
  destruct e as [x [c|es]]; unfold is_dir; simpl; [|reflexivity].
  destruct (is_html x); reflexivity.
Qed.

Lemma patch_names (g : string * node -> bool) (es : list (string * node)) :
  (forall e, g (fst e, patch_node (fst e) (snd e)) = g e) ->
  map fst (filter g (map (fun e => (fst e, patch_node (fst e) (snd e))) es)) =
  map fst (filter g es).
Proof.
  intros H. induction es as [|e es IH]; [reflexivity|].
  simpl. rewrite H. destruct (g e); simpl; rewrite IH; reflexivity.
Qed.

Lemma walk_patch (n : node) :
  forall (name : string) (top : path),
    walk_node top (patch_node name n) = walk_node top n.
Proof.
  induction n as [c|es IH] using node_ind'; intros name top.
  - simpl. destruct (is_html name); reflexivity.
  - cbn [patch_node walk_node]. f_equal.
    + f_equal; [f_equal|].
      * unfold dirs_of. apply patch_names, patch_node_is_dir.
      * unfold files_of. apply patch_names. intros e.
        rewrite patch_node_is_dir. reflexivity.
    + induction es as [|e es IHes]; [reflexivity|].
      apply Forall_cons_iff in IH. destruct IH as [He Hes].
      simpl. rewrite He, (IHes Hes). reflexivity.
Qed.

Lemma wf_patch (n : node) :
  forall name : string, wf_node (patch_node name n) = wf_node n.
Proof.
  induction n as [c|es IH] using node_ind'; intros name.
  - simpl. destruct (is_html name); reflexivity.
  - cbn [patch_node wf_node]. rewrite map_map. cbn [fst]. f_equal.
    induction es as [|e es IHes]; [reflexivity|].
    apply Forall_cons_iff in IH. destruct IH as [He Hes].
    simpl. rewrite He, (IHes Hes). reflexivity.
Qed.

Lemma after_run_isdir (fs : filesystem) (d : string) :
  os_path_isdir (after_run fs d) d = os_path_isdir fs d.
Proof.
  unfold os_path_isdir, after_run. rewrite String.eqb_refl.
  destruct (fs d) as [[c|es]|]; simpl; [|reflexivity|reflexivity].
  destruct (is_html d); reflexivity.
Qed.

Lemma after_run_well_formed (fs : filesystem) (d : string) :
  well_formed (after_run fs d) d = well_formed fs d.
Proof.
  unfold well_formed, after_run. rewrite String.eqb_refl.
  destruct (fs d) as [n|]; simpl; [apply wf_patch|reflexivity].
Qed.

Lemma after_run_targets (fs : filesystem) (d : string) :
  targets (after_run fs d) d = targets fs d.
Proof.
  unfold targets, os_walk, after_run. rewrite String.eqb_refl.
  destruct (fs d) as [n|]; simpl; [rewrite walk_patch|]; reflexivity.
Qed.

Lemma fs_read_after_run (fs : filesystem) (d : string) (p : path) :
  os_path_isdir fs d = true -> well_formed fs d = true ->
  fs_read (after_run fs d) p =
  if in_dec (list_eq_dec string_dec) p (targets fs d)
  then option_map re_sub (fs_read fs p)
  else fs_read fs p.
Proof.
  intros D W. pose proof (targets_in fs d p D W) as T.
  destruct (in_dec (list_eq_dec string_dec) p (targets fs d)) as [I|NI].
  - apply T in I. destruct I as ((names & NE & ->) & _ & F).
    unfold basename in F. rewrite last_cons in F.
    simpl. unfold after_run. rewrite String.eqb_refl.
    destruct (fs d) as [n|]; [|reflexivity].
    simpl. rewrite read_at_patch, F. reflexivity.
  - destruct p as [|top names]; [reflexivity|].
    simpl. unfold after_run. destruct (String.eqb top d) eqn:E;
      [|reflexivity].
    apply String.eqb_eq in E. subst top.
    destruct (fs d) as [n|] eqn:Fd; [|reflexivity].
    simpl. rewrite read_at_patch.
    destruct (is_html (last names d)) eqn:F; [|reflexivity].
    destruct (read_at names n) as [c|] eqn:R; [|reflexivity].
    exfalso. apply NI, T. destruct names as [|x rest].
    + unfold os_path_isdir in D. rewrite Fd in D.
      destruct n; [discriminate D|discriminate R].
    + split; [exists (x :: rest); split; [discriminate|reflexivity]|].
      split.
      * exists c. simpl. rewrite Fd. exact R.
      * unfold basename. rewrite last_cons. exact F.
Qed.

(** ** The test on names *)

Lemma lit_append (a b : string) : lit (a ++ b)%string = lit a ++ lit b.
Proof.
  unfold lit. induction a as [|c a IH]; [reflexivity|].
  simpl. rewrite IH. reflexivity.
Qed.

Lemma lit_inj (a b : string) : lit a = lit b -> a = b.
Proof.
  intros E. rewrite <- (string_of_list_ascii_of_string a),
    <- (string_of_list_ascii_of_string b).
  unfold lit in E. rewrite E. reflexivity.
Qed.

Lemma endswith_stem (name suffix : string) :
  endswith name suffix = true <->
  exists stem, name = (stem ++ suffix)%string.
Proof.
  unfold endswith. cbv zeta. rewrite andb_true_iff, text_eqb_eq. split.
  - intros [_ E].
    exists (string_of_list_ascii
              (firstn (List.length (lit name) - List.length (lit suffix))
                      (lit name))).
    apply lit_inj. rewrite lit_append. unfold lit at 2.
    rewrite list_ascii_of_string_of_list_ascii.
    rewrite <- (firstn_skipn
                  (List.length (lit name) - List.length (lit suffix))
                  (lit name)) at 1.
    f_equal. exact E.
  - intros [stem ->]. rewrite lit_append, length_app. split.
    + apply Nat.leb_le. lia.
    + replace (List.length (lit stem) + List.length (lit suffix)
               - List.length (lit suffix)) with (List.length (lit stem)) by lia.
      rewrite skipn_app, skipn_all, Nat.sub_diag. reflexivity.
Qed.

Lemma filter_none (A : Type) (f : A -> bool) (l : list A) :
  (forall x, In x l -> f x = false) -> filter f l = [].
Proof.
  induction l as [|x l IH]; intros H; [reflexivity|].
  simpl. rewrite (H x (or_introl eq_refl)). apply IH.
  intros y I. apply H. right. exact I.
Qed.

Lemma fix_html_inv (p : path) (w w' : world) (b : bool) :
  fix_html p w = Some (w', b) -> exists c, files w p = Some c.
Proof.
  unfold fix_html. destruct (files w p) as [c|]; [|discriminate].
  intros _. exists c. reflexivity.
Qed.

End FsFacts.

(** * The properties of the specification *)

Import Re Fs Samples ReFacts FsFacts.

Example ex_entry_tag :
  re_sub entry_tag =
  lit "<script type=" ++ [dquote] ++ lit "module" ++ [dquote] ++
  lit " src=" ++ [dquote] ++ lit "/app.js" ++ [dquote] ++
  lit " defer></script>".
Proof. vm_compute. reflexivity. Qed.

Example ex_demo_run :
  summary (main ["fix-web-export.py"%string] demo_fs) =
  Some (("Fixed 2 HTML files in dist" ++ nl)%string, EmptyString, 0%Z).
Proof. vm_compute. reflexivity. Qed.

Example ex_demo_second_run :
  let w := final_world (main ["fix-web-export.py"%string] demo_fs) in
  match fold_left step (targets demo_fs "dist")
          (Running (mkWorld (files w) []) 0) with
  | Running _ count => Some count
  | Raised _ => None
  end = Some 0.
Proof. vm_compute. reflexivity. Qed.

Example ex_missing_root :
  summary (main ["fix-web-export.py"%string; "build"%string] demo_fs) =
  Some (EmptyString, ("Error: directory 'build' not found" ++ nl)%string, 1%Z).
Proof. vm_compute. reflexivity. Qed.

(** ** The substitution *)

(** C1, as stated, fails: in [nested_tag] the pattern occurs a second time,
    with the group [ defer>], starting inside the group of the first
    occurrence; the result holds no tag built from that group. *)
Lemma re_sub_every_occurrence_counterexample :
  (url_ok (lit " defer>") /\
   nested_tag = (PFX ++ lit "x") ++ PFX ++ lit " defer>" ++ SFX ++ []) /\
  re_sub nested_tag = expand (lit "x<script src=") ++ SFX /\
  ~ infix_of (expand (lit " defer>")) (re_sub nested_tag).
Proof.
  split; [split|split].
  - split; [discriminate|not_in_literal].
  - reflexivity.
  - vm_compute. reflexivity.
  - intros I. apply contains_true in I. vm_compute in I. discriminate I.
Qed.

(** C1 (amended): the subject splits, from left to right, into characters
    that are kept and occurrences of the pattern whose group is not empty and
    holds no double quote; the result is the same sequence with every such
    occurrence replaced by the new tag around the same group and every kept
    character unchanged; and every occurrence of the pattern in the subject
    starts at one of the replaced occurrences, and then is that one, or
    inside one. *)
Theorem re_sub_replaces_scanned (s : text) :
  flat_map source (scan s) = s /\
  re_sub s = flat_map target (scan s) /\
  (forall u, In (Match u) (scan s) -> url_ok u) /\
  (forall a t, s = a ++ t -> occurs_at t ->
     exists l1 u l2,
       scan s = l1 ++ Match u :: l2 /\
       List.length (flat_map source l1) <= List.length a /\
       List.length a < List.length (flat_map source l1) + m_end u /\
       (List.length a = List.length (flat_map source l1) ->
        t = source (Match u) ++ flat_map source l2)).
Proof.
  split; [apply scan_source|]. split; [reflexivity|].
  split; [intros u; apply scan_urls_ok|].
  intros a t E O.
  destruct (@scan_covers s a t E O) as (l1 & u & l2 & S & Lo & Hi).
  exists l1, u, l2. repeat split; try assumption.
  apply (@scan_covers_start s a t l1 l2 u E S).
Qed.

Lemma re_sub_replaces_scanned_witness :
  exists l1 u l2,
    scan (lit "ab" ++ entry_tag) = l1 ++ Match u :: l2 /\
    List.length (flat_map source l1) <= List.length (lit "ab") /\
    List.length (lit "ab") < List.length (flat_map source l1) + m_end u /\
    (List.length (lit "ab") = List.length (flat_map source l1) ->
     entry_tag = source (Match u) ++ flat_map source l2).
Proof.
  apply (proj2 (proj2 (proj2 (re_sub_replaces_scanned (lit "ab" ++ entry_tag))))
           (lit "ab") entry_tag).
  - reflexivity.
  - exists (lit "/app.js"), (lit "</script>").
    split; [split; [discriminate|not_in_literal]|reflexivity].
Defined.

(** C3, as stated, fails: a second pass rewrites the opening literal that
    the first pass left inside the group of [nested_tag]. *)
Lemma re_sub_idempotent_counterexample :
  re_sub (re_sub nested_tag) <> re_sub nested_tag.
Proof. intros E. vm_compute in E. discriminate E. Qed.

(** C3 (amended): on every text that does not hold [<script src=' defer>],
    the opening literal followed by the text that closes a match, the
    substitution is idempotent. *)
Theorem re_sub_idempotent (s : text) :
  contains NESTED s = false -> re_sub (re_sub s) = re_sub s.
Proof.
  intros C. apply re_sub_fixed. apply re_sub_stable, C.
Qed.

Lemma re_sub_idempotent_witness :
  contains NESTED (lit "x" ++ entry_tag ++ entry_tag) = false /\
  re_sub (re_sub (lit "x" ++ entry_tag ++ entry_tag)) =
  re_sub (lit "x" ++ entry_tag ++ entry_tag).
Proof.
  split; [reflexivity|].
  apply (re_sub_idempotent (lit "x" ++ entry_tag ++ entry_tag)).
  reflexivity.
Defined.

(** C9: the result is longer than the subject by 14 characters, the length
    of the inserted [type='module' ], for every substitution made; it is
    never shorter. *)
Theorem re_sub_length_14 (s : text) :
  List.length (re_sub s) = List.length s + 14 * snd (re_subn s) /\
  snd (re_subn s) = List.length (filter is_match (scan s)) /\
  List.length s <= List.length (re_sub s) /\
  List.length (lit "type=" ++ [dquote] ++ lit "module" ++ [dquote] ++ lit " ")
  = 14.
Proof.
  pose proof (re_sub_length s) as L.
  split; [exact L|]. split; [reflexivity|]. split; [lia|reflexivity].
Qed.

(** ** One file *)

(** C4, as stated, fails in its last part: [nested_tag] holds two
    occurrences of the pattern, [fix_html] returns true and writes the file,
    and the content written holds no tag built from the group of the second
    occurrence. *)
Lemma fix_html_all_replaced_counterexample :
  let p := ["dist"; "index.html"]%string in
  let w := {| files := fun _ => Some nested_tag; trace := [] |} in
  (url_ok (lit "x<script src=") /\
   nested_tag = [] ++ PFX ++ lit "x<script src=" ++ SFX ++ SFX) /\
  (url_ok (lit " defer>") /\
   nested_tag = (PFX ++ lit "x") ++ PFX ++ lit " defer>" ++ SFX ++ []) /\
  fix_html p w =
    Some (write_file (log_read w p) p (re_sub nested_tag), true) /\
  ~ infix_of (expand (lit " defer>")) (re_sub nested_tag).
Proof.
  split; [split|split; [split|split]].
  - split; [discriminate|not_in_literal].
  - reflexivity.
  - split; [discriminate|not_in_literal].
  - reflexivity.
  - reflexivity.
  - intros I. apply contains_true in I. vm_compute in I. discriminate I.
Qed.

(** C4 (amended): on a file that opens, [fix_html] returns true exactly
    when the pattern occurs in the content; without an occurrence the
    content is returned as it is and the file is not written; with one, the
    file is written with the result of the single pass from left to right,
    in which every match of the scan is replaced and at least one
    substitution is made. *)
Theorem fix_html_changed_iff (p : path) (w : world) (content : text) :
  files w p = Some content ->
  exists w' b,
    fix_html p w = Some (w', b) /\
    (b = true <-> occurs content) /\
    (~ occurs content ->
       re_sub content = content /\
       (forall q, files w' q = files w q) /\
       trace w' = OpenRead p :: trace w) /\
    (occurs content ->
       files w' p = Some (flat_map target (scan content)) /\
       flat_map source (scan content) = content /\
       1 <= snd (re_subn content) /\
       trace w' = OpenWrite p :: OpenRead p :: trace w).
Proof.
  intros R. destruct (fix_html_some p w R) as (w' & F & Fl & Tr).
  exists w', (changed content). split; [exact F|].
  split; [apply changed_iff_occurs|]. split.
  - intros NO. split; [apply re_sub_fixed, NO|]. split.
    + intros q. rewrite Fl. destruct (path_eqb q p) eqn:E; [|reflexivity].
      apply path_eqb_eq in E. subst q.
      rewrite (re_sub_fixed NO), R. reflexivity.
    + rewrite Tr. destruct (changed content) eqn:C; [|reflexivity].
      apply changed_iff_occurs in C. contradiction.
  - intros O. split; [|split; [|split]].
    + rewrite Fl, path_eqb_refl. reflexivity.
    + apply scan_source.
    + apply occurs_iff_count, O.
    + rewrite Tr. apply changed_iff_occurs in O. rewrite O. reflexivity.
Qed.

Lemma fix_html_changed_iff_witness :
  exists w' b,
    fix_html ["dist"; "index.html"]%string (init_world demo_fs) = Some (w', b) /\
    (b = true <-> occurs entry_tag) /\
    (~ occurs entry_tag ->
       re_sub entry_tag = entry_tag /\
       (forall q, files w' q = files (init_world demo_fs) q) /\
       trace w' = OpenRead ["dist"; "index.html"]%string ::
                  trace (init_world demo_fs)) /\
    (occurs entry_tag ->
       files w' ["dist"; "index.html"]%string =
         Some (flat_map target (scan entry_tag)) /\
       flat_map source (scan entry_tag) = entry_tag /\
       1 <= snd (re_subn entry_tag) /\
       trace w' = OpenWrite ["dist"; "index.html"]%string ::
                  OpenRead ["dist"; "index.html"]%string ::
                  trace (init_world demo_fs)).
Proof.
  apply (fix_html_changed_iff ["dist"; "index.html"]%string
           (init_world demo_fs)).
  reflexivity.
Defined.

(** C8: what [fix_html] writes and returns depends on the content read
    alone: on two files with the same content, in any two states and under
    any two paths, the flags are equal and so are the contents afterwards. *)
Theorem fix_html_deterministic (p1 p2 : path) (w1 w2 : world) (c : text) :
  files w1 p1 = Some c -> files w2 p2 = Some c ->
  exists w1' w2' b,
    fix_html p1 w1 = Some (w1', b) /\
    fix_html p2 w2 = Some (w2', b) /\
    files w1' p1 = files w2' p2 /\
    b = changed c /\ files w1' p1 = Some (re_sub c).
Proof.
  intros R1 R2.
  destruct (fix_html_some p1 w1 R1) as (w1' & F1 & Fl1 & _).
  destruct (fix_html_some p2 w2 R2) as (w2' & F2 & Fl2 & _).
  exists w1', w2', (changed c).
  split; [exact F1|]. split; [exact F2|].
  rewrite Fl1, Fl2, !path_eqb_refl. auto.
Qed.

Lemma fix_html_deterministic_witness :
  exists w1' w2' b,
    fix_html ["dist"; "index.html"]%string (init_world demo_fs)
      = Some (w1', b) /\
    fix_html ["dist"; "sub"; "b.HTML"]%string (init_world demo_fs)
      = Some (w2', b) /\
    files w1' ["dist"; "index.html"]%string =
    files w2' ["dist"; "sub"; "b.HTML"]%string /\
    b = changed entry_tag /\
    files w1' ["dist"; "index.html"]%string = Some (re_sub entry_tag).
Proof.
  apply (fix_html_deterministic ["dist"; "index.html"]%string
           ["dist"; "sub"; "b.HTML"]%string
           (init_world demo_fs) (init_world demo_fs)); reflexivity.
Defined.

(** ** The run *)

(** C7: without an argument after the name of the script, the root is the
    literal [dist]. *)
Theorem dist_dir_default (prog : string) (fs : filesystem) :
  dist_dir_of [prog] = "dist"%string /\
  dist_dir_of [] = "dist"%string /\
  main [prog] fs = main [prog; "dist"%string] fs.
Proof. repeat split. Qed.

(** C10: the arguments after the first one are ignored: the run is the one
    with the first argument alone, which is the root. *)
Theorem main_ignores_extra_args (prog a : string) (rest : list string)
  (fs : filesystem) :
  dist_dir_of (prog :: a :: rest) = a /\
  main (prog :: a :: rest) fs = main [prog; a] fs.
Proof. split; reflexivity. Qed.

(** C2: when the root is not an existing directory, the run prints the
    diagnostic [Error: directory ... not found], with the root between
    single quotes, on the error stream and nothing on the output, exits with
    code 1, and leaves the files as they were, with no file opened. *)
Theorem main_missing_root (argv : list string) (fs : filesystem) :
  os_path_isdir fs (dist_dir_of argv) = false ->
  main argv fs =
    Exit EmptyString
         ("Error: directory '" ++ dist_dir_of argv ++ "' not found" ++ nl)%string
         1
         {| files := fs_read fs; trace := [] |}.
Proof.
  intros D. unfold main. rewrite D. reflexivity.
Qed.

Lemma main_missing_root_witness :
  main ["fix-web-export.py"; "build"]%string demo_fs =
    Exit EmptyString
         ("Error: directory '" ++
          dist_dir_of ["fix-web-export.py"; "build"]%string ++
          "' not found" ++ nl)%string
         1
         {| files := fs_read demo_fs; trace := [] |}.
Proof.
  apply (main_missing_root ["fix-web-export.py"; "build"]%string demo_fs).
  reflexivity.
Defined.

(** C5: on an existing root (whose directories list distinct names), the
    run prints the one line [Fixed <count> HTML files in <rootDir>] and
    nothing on the error stream, and exits with code 0; the count is the
    number of files handed to [fix_html] whose content the substitution
    changes, zero included. *)
Theorem main_reports_count (argv : list string) (fs : filesystem) :
  os_path_isdir fs (dist_dir_of argv) = true ->
  well_formed fs (dist_dir_of argv) = true ->
  exists w',
    main argv fs =
      Exit ("Fixed " ++
            str_of_nat
              (List.length
                 (filter (fun p => match fs_read fs p with
                                   | Some c => changed c
                                   | None => false
                                   end)
                         (targets fs (dist_dir_of argv)))) ++
            " HTML files in " ++ dist_dir_of argv ++ nl)%string
           EmptyString 0 w'.
Proof.
  intros D W. destruct (main_run argv fs D W) as (w' & M & _).
  exists w'. exact M.
Qed.

Lemma main_reports_count_witness :
  exists w',
    main ["fix-web-export.py"]%string demo_fs =
      Exit ("Fixed " ++
            str_of_nat
              (List.length
                 (filter (fun p => match fs_read demo_fs p with
                                   | Some c => changed c
                                   | None => false
                                   end)
                         (targets demo_fs
                            (dist_dir_of ["fix-web-export.py"]%string)))) ++
            " HTML files in " ++
            dist_dir_of ["fix-web-export.py"]%string ++ nl)%string
           EmptyString 0 w'.
Proof.
  apply (main_reports_count ["fix-web-export.py"]%string demo_fs);
    reflexivity.
Defined.

(** C6: on an existing root (whose directories list distinct names),
    [fix_html] is called on exactly the files below the root, at any depth,
    whose name ends with [.html]; each of them ends up holding the
    substitution of its content; a file is opened for writing only if it is
    one of them; and every other path reads as before. *)
Theorem main_touches_html_only (argv : list string) (fs : filesystem) :
  os_path_isdir fs (dist_dir_of argv) = true ->
  well_formed fs (dist_dir_of argv) = true ->
  exists out w',
    main argv fs = Exit out EmptyString 0 w' /\
    (forall p, In (OpenRead p) (trace w') <->
       (exists names, names <> [] /\ p = dist_dir_of argv :: names) /\
       is_file fs p /\ endswith (basename p) ".html" = true) /\
    (forall p, In (OpenRead p) (trace w') ->
       files w' p = option_map re_sub (fs_read fs p)) /\
    (forall p, In (OpenWrite p) (trace w') ->
       In (OpenRead p) (trace w') /\ endswith (basename p) ".html" = true) /\
    (forall p, endswith (basename p) ".html" = false ->
       files w' p = fs_read fs p /\ ~ In (OpenWrite p) (trace w')).
Proof.
  intros D W.
  destruct (main_run argv fs D W) as (w' & M & Hin & Hout & Htr).
  pose proof (fun p => targets_in fs (dist_dir_of argv) p D W) as T.
  assert (Rd : forall p, In (OpenRead p) (trace w') <->
                         In p (targets fs (dist_dir_of argv))).
  { intros p. rewrite Htr. split.
    - intros (q & I & [E|[E _]]); [|discriminate]. injection E as ->. exact I.
    - intros I. exists p. auto. }
  assert (Wr : forall p, In (OpenWrite p) (trace w') ->
                         In p (targets fs (dist_dir_of argv))).
  { intros p I. apply Htr in I. destruct I as (q & I & [E|[E _]]);
      [discriminate|]. injection E as ->. exact I. }
  eexists. exists w'. split; [exact M|]. split; [|split; [|split]].
  - intros p. rewrite Rd. apply T.
  - intros p I. apply Hin, Rd, I.
  - intros p I. pose proof (Wr p I) as I'. split; [apply Rd, I'|].
    apply T in I'. exact (proj2 (proj2 I')).
  - intros p F.
    assert (NT : ~ In p (targets fs (dist_dir_of argv))).
    { intros I. apply T in I. destruct I as (_ & _ & F').
      unfold is_html in F'. congruence. }
    split; [apply Hout, NT|]. intros I. apply NT, Wr, I.
Qed.

Lemma main_touches_html_only_witness :
  exists out w',
    main ["fix-web-export.py"]%string demo_fs = Exit out EmptyString 0 w' /\
    (forall p, In (OpenRead p) (trace w') <->
       (exists names, names <> [] /\
          p = dist_dir_of ["fix-web-export.py"]%string :: names) /\
       is_file demo_fs p /\ endswith (basename p) ".html" = true) /\
    (forall p, In (OpenRead p) (trace w') ->
       files w' p = option_map re_sub (fs_read demo_fs p)) /\
    (forall p, In (OpenWrite p) (trace w') ->
       In (OpenRead p) (trace w') /\ endswith (basename p) ".html" = true) /\
    (forall p, endswith (basename p) ".html" = false ->
       files w' p = fs_read demo_fs p /\ ~ In (OpenWrite p) (trace w')).
Proof.
  apply (main_touches_html_only ["fix-web-export.py"]%string demo_fs);
    reflexivity.
Defined.

(** * Further properties of the script *)

(** ** The substitution *)

(** X1: a text that does not hold the opening literal [<script src='] is
    returned as it is: no substitution is made and [fix_html] would not
    write it. *)
Theorem re_sub_without_opening_literal (s : text) :
  contains PFX s = false ->
  re_sub s = s /\ snd (re_subn s) = 0 /\ changed s = false.
Proof.
  intros C.
  assert (NO : ~ occurs s).
  { intros O. apply occurs_infix_PFX, contains_true in O. congruence. }
  split; [apply re_sub_fixed, NO|]. split.
  - destruct (snd (re_subn s)) eqn:E; [reflexivity|].
    exfalso. apply NO, occurs_iff_count. lia.
  - destruct (changed s) eqn:E; [|reflexivity].
    apply changed_iff_occurs in E. contradiction.
Qed.

Lemma re_sub_without_opening_literal_witness :
  re_sub (lit "<script src='/app.js' defer></script>") =
    lit "<script src='/app.js' defer></script>" /\
  snd (re_subn (lit "<script src='/app.js' defer></script>")) = 0 /\
  changed (lit "<script src='/app.js' defer></script>") = false.
Proof.
  apply (@re_sub_without_opening_literal
           (lit "<script src='/app.js' defer></script>")).
  reflexivity.
Defined.

(** X2: a tag that already has the module type is copied as it is, whatever
    follows it, when its address holds no [<]; the scan goes on after it. *)
Theorem re_sub_keeps_module_tag (u r : text) :
  ~ In "<"%char u -> re_sub (expand u ++ r) = expand u ++ re_sub r.
Proof.
  intros N.
  change (expand u ++ r)
    with ("<"%char :: ((tl NEW_PFX ++ u ++ NEW_SFX) ++ r)).
  rewrite re_sub_lit.
  - rewrite re_sub_copies; [reflexivity|].
    apply not_in_app; [not_in_literal|].
    apply not_in_app; [exact N|not_in_literal].
  - exact (@not_occurs_at_expand u r).
Qed.

Lemma re_sub_keeps_module_tag_witness :
  re_sub (expand (lit "/app.js") ++ entry_tag) =
  expand (lit "/app.js") ++ re_sub entry_tag.
Proof.
  apply (@re_sub_keeps_module_tag (lit "/app.js") entry_tag).
  intros H. cbn in H.
  repeat (destruct H as [H|H]; [discriminate H|]). exact H.
Defined.

(** X3: two tags are rewritten independently of each other, each with its
    own address, and the texts without [<] before and between them are
    copied; the scan goes on after the second tag. *)
Theorem re_sub_two_tags (w1 u1 w2 u2 r : text) :
  ~ In "<"%char w1 -> ~ In "<"%char w2 -> url_ok u1 -> url_ok u2 ->
  re_sub (w1 ++ PFX ++ u1 ++ SFX ++ w2 ++ PFX ++ u2 ++ SFX ++ r) =
    w1 ++ expand u1 ++ w2 ++ expand u2 ++ re_sub r /\
  snd (re_subn (w1 ++ PFX ++ u1 ++ SFX ++ w2 ++ PFX ++ u2 ++ SFX ++ r)) =
    2 + snd (re_subn r).
Proof.
  intros N1 N2 K1 K2. split.
  - rewrite (@re_sub_copies w1 _ N1), (@re_sub_match u1 _ K1),
      (@re_sub_copies w2 _ N2), (@re_sub_match u2 _ K2).
    reflexivity.
  - rewrite (@re_subn_copies w1 _ N1). cbn [snd].
    rewrite (@count_match u1 _ K1), (@re_subn_copies w2 _ N2). cbn [snd].
    rewrite (@count_match u2 _ K2). reflexivity.
Qed.

Lemma re_sub_two_tags_witness :
  re_sub (lit "a" ++ PFX ++ lit "/x.js" ++ SFX ++ lit "b" ++
          PFX ++ lit "/y.js" ++ SFX ++ lit "c") =
    lit "a" ++ expand (lit "/x.js") ++ lit "b" ++ expand (lit "/y.js") ++
    re_sub (lit "c") /\
  snd (re_subn (lit "a" ++ PFX ++ lit "/x.js" ++ SFX ++ lit "b" ++
                PFX ++ lit "/y.js" ++ SFX ++ lit "c")) =
    2 + snd (re_subn (lit "c")).
Proof.
  apply (@re_sub_two_tags (lit "a") (lit "/x.js") (lit "b") (lit "/y.js")
           (lit "c")).
  - intros H. cbn in H. repeat (destruct H as [H|H]; [discriminate H|]).
    exact H.
  - intros H. cbn in H. repeat (destruct H as [H|H]; [discriminate H|]).
    exact H.
  - split; [discriminate|]. intros H. cbn in H.
    repeat (destruct H as [H|H]; [discriminate H|]). exact H.
  - split; [discriminate|]. intros H. cbn in H.
    repeat (destruct H as [H|H]; [discriminate H|]). exact H.
Defined.

(** X4: a tag whose [src] is empty is not a match, since the group takes one
    character at least: it is copied, and the scan goes on after it. *)
Theorem re_sub_empty_src (r : text) :
  re_sub (PFX ++ SFX ++ r) = PFX ++ SFX ++ re_sub r /\
  snd (re_subn (PFX ++ SFX ++ r)) = snd (re_subn r).
Proof.
  pose proof (@not_occurs_at_empty_url r) as NO.
  assert (N : ~ In "<"%char (tl PFX ++ SFX)) by not_in_literal.
  change (PFX ++ SFX ++ r) with ("<"%char :: ((tl PFX ++ SFX) ++ r)) in *.
  split.
  - rewrite (re_sub_lit NO), (@re_sub_copies _ r N). reflexivity.
  - rewrite (count_lit NO), (@re_subn_copies _ r N). reflexivity.
Qed.

(** X5: the backtracking of the greedy group never finds a match that ends
    before the first double quote: the match at a position is the one that
    takes the characters up to the first double quote, and there is none when
    the closing literal does not stand right there. *)
Theorem match_at_first_quote (s : text) :
  match_at s = match_first_quote s.
Proof.
  unfold match_at, match_first_quote.
  destruct (strip_prefix PFX s) as [r|]; [|reflexivity].
  apply group_then_sfx_first_quote.
Qed.

(** X6: a match takes 22 characters at least, so a text of length [n] gets
    at most [n / 22] substitutions, and the result is at most 18/11 of the
    subject. *)
Theorem re_sub_growth_bound (s : text) :
  22 * snd (re_subn s) <= List.length s /\
  11 * List.length (re_sub s) <= 18 * List.length s.
Proof.
  pose proof (count_bound s) as B. pose proof (re_sub_length s) as L.
  split; lia.
Qed.

(** ** One file *)

(** X7: a call of [fix_html] that returns leaves every other path as it
    was, creates and deletes no file, and changes nothing at all when it
    returns false. *)
Theorem fix_html_frame (p : path) (w w' : world) (b : bool) :
  fix_html p w = Some (w', b) ->
  (forall q, q <> p -> files w' q = files w q) /\
  (forall q, files w' q = None <-> files w q = None) /\
  (b = false -> forall q, files w' q = files w q).
Proof.
  intros F. destruct (fix_html_inv p w F) as [c R].
  destruct (@fix_html_some p w c R) as (w1 & F1 & Fl & _).
  rewrite F in F1. injection F1 as <- ->.
  split; [|split].
  - intros q NE. rewrite Fl, path_eqb_neq; [reflexivity|exact NE].
  - intros q. rewrite Fl. destruct (path_eqb q p) eqn:E; [|reflexivity].
    apply path_eqb_eq in E. subst q. rewrite R. split; discriminate.
  - intros C q. rewrite Fl. destruct (path_eqb q p) eqn:E; [|reflexivity].
    apply path_eqb_eq in E. subst q. rewrite R. f_equal.
    apply negb_false_iff, text_eqb_eq in C. exact C.
Qed.

Lemma fix_html_frame_witness :
  let p := ["dist"; "index.html"]%string in
  let w := init_world demo_fs in
  let w' := write_file (log_read w p) p (re_sub entry_tag) in
  (forall q, q <> p -> files w' q = files w q) /\
  (forall q, files w' q = None <-> files w q = None) /\
  (true = false -> forall q, files w' q = files w q).
Proof.
  apply (@fix_html_frame ["dist"; "index.html"]%string (init_world demo_fs)
           (write_file (log_read (init_world demo_fs)
                          ["dist"; "index.html"]%string)
              ["dist"; "index.html"]%string (re_sub entry_tag)) true).
  reflexivity.
Defined.

(** X8: on a content that does not hold [<script src=' defer>], a second
    call of [fix_html] on the same file returns false and changes no
    file. *)
Theorem fix_html_twice (p : path) (w : world) (c : text) :
  files w p = Some c -> contains NESTED c = false ->
  exists w1 b w2,
    fix_html p w = Some (w1, b) /\
    fix_html p w1 = Some (w2, false) /\
    (forall q, files w2 q = files w1 q).
Proof.
  intros R C.
  destruct (@fix_html_some p w c R) as (w1 & F1 & Fl1 & _).
  assert (R1 : files w1 p = Some (re_sub c))
    by (rewrite Fl1, path_eqb_refl; reflexivity).
  destruct (@fix_html_some p w1 (re_sub c) R1) as (w2 & F2 & Fl2 & _).
  assert (NC : changed (re_sub c) = false).
  { destruct (changed (re_sub c)) eqn:E; [|reflexivity].
    apply changed_iff_occurs in E. destruct (re_sub_stable c C E). }
  rewrite NC in F2. exists w1, (changed c), w2.
  split; [exact F1|]. split; [exact F2|].
  intros q. rewrite Fl2. destruct (path_eqb q p) eqn:E; [|reflexivity].
  apply path_eqb_eq in E. subst q. rewrite R1. f_equal.
  apply re_sub_fixed, re_sub_stable, C.
Qed.

Lemma fix_html_twice_witness :
  exists w1 b w2,
    fix_html ["dist"; "index.html"]%string (init_world demo_fs)
      = Some (w1, b) /\
    fix_html ["dist"; "index.html"]%string w1 = Some (w2, false) /\
    (forall q, files w2 q = files w1 q).
Proof.
  apply (@fix_html_twice ["dist"; "index.html"]%string (init_world demo_fs)
           entry_tag); reflexivity.
Defined.

(** X13: the test [name.endswith(suffix)] holds exactly for the names made
    of some stem, possibly empty, followed by the suffix. *)
Theorem endswith_iff_stem (name suffix : string) :
  endswith name suffix = true <->
  exists stem, name = (stem ++ suffix)%string.
Proof. apply endswith_stem. Qed.

(** ** The run *)



(** X10: in a run on an existing root, the files are opened in the order of
    the walk, each file whose name ends with [.html] once for reading and,
    when the substitution changes its content, once for writing right after;
    the count printed is the number of files opened for writing. *)
Theorem main_open_log (argv : list string) (fs : filesystem) :
  os_path_isdir fs (dist_dir_of argv) = true ->
  well_formed fs (dist_dir_of argv) = true ->
  exists count w',
    main argv fs =
      Exit (fixed_line count (dist_dir_of argv)) EmptyString 0 w' /\
    rev (trace w') =
      flat_map (opens_of (init_world fs)) (targets fs (dist_dir_of argv)) /\
    NoDup (targets fs (dist_dir_of argv)) /\
    count = List.length (filter is_write (trace w')).
Proof.
  intros D W.
  pose proof (NoDup_targets fs (dist_dir_of argv) W) as ND.
  assert (R : forall p, In p (targets fs (dist_dir_of argv)) ->
                        exists c, files (init_world fs) p = Some c).
  { intros p I. apply (targets_in fs (dist_dir_of argv) p D W) in I.
    destruct I as (_ & R & _). exact R. }
  destruct (@fold_step (targets fs (dist_dir_of argv)) (init_world fs) 0 ND R)
    as (w' & Fo & _).
  pose proof (@fold_step_trace (targets fs (dist_dir_of argv))
                (init_world fs) 0 ND R w' _ Fo) as Tr.
  simpl in Tr. eexists. exists w'. split; [|split; [exact Tr|split]].
  - rewrite (main_run_fold argv fs D), Fo. reflexivity.
  - exact ND.
  - rewrite <- (rev_involutive (trace w')), filter_rev, length_rev, Tr.
    rewrite writes_of_opens. reflexivity.
Qed.

Lemma main_open_log_witness :
  exists count w',
    main ["fix-web-export.py"]%string demo_fs =
      Exit (fixed_line count (dist_dir_of ["fix-web-export.py"]%string))
           EmptyString 0 w' /\
    rev (trace w') =
      flat_map (opens_of (init_world demo_fs))
        (targets demo_fs (dist_dir_of ["fix-web-export.py"]%string)) /\
    NoDup (targets demo_fs (dist_dir_of ["fix-web-export.py"]%string)) /\
    count = List.length (filter is_write (trace w')).
Proof.
  apply (@main_open_log ["fix-web-export.py"]%string demo_fs); reflexivity.
Defined.

(** X11: after a run on an existing root, every path reads as in the tree
    in which each file whose name ends with [.html] holds the substitution of
    its content, and every other file and every directory listing is as
    before. *)
Theorem main_final_tree (argv : list string) (fs : filesystem) :
  os_path_isdir fs (dist_dir_of argv) = true ->
  well_formed fs (dist_dir_of argv) = true ->
  exists out w',
    main argv fs = Exit out EmptyString 0 w' /\
    forall p, files w' p = fs_read (after_run fs (dist_dir_of argv)) p.
Proof.
  intros D W.
  destruct (main_run argv fs D W) as (w' & M & Hin & Hout & _).
  eexists. exists w'. split; [exact M|].
  intros p. rewrite (fs_read_after_run fs (dist_dir_of argv) p D W).
  destruct (in_dec (list_eq_dec string_dec) p
              (targets fs (dist_dir_of argv))) as [I|NI].
  - apply Hin, I.
  - apply Hout, NI.
Qed.

Lemma main_final_tree_witness :
  exists out w',
    main ["fix-web-export.py"]%string demo_fs = Exit out EmptyString 0 w' /\
    forall p, files w' p =
              fs_read (after_run demo_fs
                         (dist_dir_of ["fix-web-export.py"]%string)) p.
Proof.
  apply (@main_final_tree ["fix-web-export.py"]%string demo_fs); reflexivity.
Defined.

(** X12: when no file handed to [fix_html] holds [<script src=' defer>], a
    second run on the tree that the first run leaves prints
    [Fixed 0 HTML files in <rootDir>], opens no file for writing and leaves
    every file as it is. *)
Theorem main_second_run (argv : list string) (fs : filesystem) :
  os_path_isdir fs (dist_dir_of argv) = true ->
  well_formed fs (dist_dir_of argv) = true ->
  forallb (fun p => match fs_read fs p with
                    | Some c => negb (contains NESTED c)
                    | None => true
                    end)
          (targets fs (dist_dir_of argv)) = true ->
  exists w2,
    main argv (after_run fs (dist_dir_of argv)) =
      Exit ("Fixed 0 HTML files in " ++ dist_dir_of argv ++ nl)%string
           EmptyString 0 w2 /\
    (forall p, files w2 p = fs_read (after_run fs (dist_dir_of argv)) p) /\
    (forall p, ~ In (OpenWrite p) (trace w2)).
Proof.
  intros D W H. set (d := dist_dir_of argv) in *.
  set (fs2 := after_run fs d).
  assert (D2 : os_path_isdir fs2 d = true)
    by (unfold fs2; rewrite after_run_isdir; exact D).
  assert (W2 : well_formed fs2 d = true)
    by (unfold fs2; rewrite after_run_well_formed; exact W).
  assert (T2 : targets fs2 d = targets fs d) by apply after_run_targets.
  rewrite forallb_forall in H.
  assert (Rd : forall p, In p (targets fs d) ->
                 exists c, fs_read fs p = Some c /\
                           contains NESTED c = false /\
                           fs_read fs2 p = Some (re_sub c)).
  { intros p I. pose proof (H p I) as Hp.
    pose proof (proj1 (targets_in fs d p D W) I) as (_ & [c R] & _).
    rewrite R in Hp. apply negb_true_iff in Hp.
    exists c. split; [exact R|]. split; [exact Hp|].
    unfold fs2. rewrite (fs_read_after_run fs d p D W).
    destruct (in_dec (list_eq_dec string_dec) p (targets fs d));
      [|contradiction].
    rewrite R. reflexivity. }
  assert (NC : forall p, In p (targets fs d) ->
                         changed_at (init_world fs2) p = false).
  { intros p I. destruct (Rd p I) as (c & _ & C & R2).
    unfold changed_at. simpl. rewrite R2.
    destruct (changed (re_sub c)) eqn:E; [|reflexivity].
    apply changed_iff_occurs in E. destruct (re_sub_stable c C E). }
  destruct (main_run argv fs2 D2 W2) as (w2 & M & Hin & Hout & Htr).
  fold d in M, Hin, Hout, Htr. rewrite T2 in M, Hin, Hout, Htr.
  rewrite (filter_none _ _ NC) in M.
  exists w2. split; [exact M|]. split.
  - intros p.
    destruct (in_dec (list_eq_dec string_dec) p (targets fs d)) as [I|NI].
    + rewrite (Hin p I). destruct (Rd p I) as (c & _ & C & R2).
      rewrite R2. simpl. f_equal. apply re_sub_fixed, re_sub_stable, C.
    + apply Hout, NI.
  - intros p I. apply Htr in I. destruct I as (q & Iq & [E|[_ C]]);
      [discriminate E|].
    rewrite (NC q Iq) in C. discriminate C.
Qed.

Lemma main_second_run_witness :
  exists w2,
    main ["fix-web-export.py"]%string
         (after_run demo_fs (dist_dir_of ["fix-web-export.py"]%string)) =
      Exit ("Fixed 0 HTML files in " ++
            dist_dir_of ["fix-web-export.py"]%string ++ nl)%string
           EmptyString 0 w2 /\
    (forall p, files w2 p =
               fs_read (after_run demo_fs
                          (dist_dir_of ["fix-web-export.py"]%string)) p) /\
    (forall p, ~ In (OpenWrite p) (trace w2)).
Proof.
  apply (@main_second_run ["fix-web-export.py"]%string demo_fs); reflexivity.
Defined.
